(** * twitch_service: the chat/director bridge

    A shallow embedding of the three modules of the service
    ([director_bridge.py], [twitch_client.py], [main.py]) and the
    properties of the bridge core that its specification states.

    Python values are modelled as the code has them: a [str] is a sequence
    of Unicode code points, a [dict] literal is an association list in
    insertion order, module globals are the fields of a state record that
    every function threads explicitly, and a call that may raise returns an
    [outcome]. *)

From Stdlib Require Import List NArith ZArith Lia Bool String Ascii.
Import ListNotations.

(* ================================================================== *)
(** * Python strings *)
(* ================================================================== *)

Module PyStr.

(** A code point and a Python [str]. *)
Definition code := N.
Definition str := list code.

Local Open Scope N_scope.

(** The [str] denoted by an ASCII literal of the source. *)
Definition lit (s : string) : str :=
  map N_of_ascii (list_ascii_of_string s).

Definition in_range (lo hi c : code) : bool :=
  (N.leb lo c && N.leb c hi)%bool.

(** [Py_UNICODE_ISSPACE]: the characters that [\s] matches in a [str]
    pattern and that [str.strip()] removes. *)
Definition is_space (c : code) : bool :=
  (in_range 9 13 c || in_range 28 32 c || N.eqb c 133 || N.eqb c 160
   || N.eqb c 5760 || in_range 8192 8202 c || N.eqb c 8232
   || N.eqb c 8233 || N.eqb c 8239 || N.eqb c 8287 || N.eqb c 12288)%bool.

(** The class [[A-Za-z]]. *)
Definition is_letter (c : code) : bool :=
  (in_range 65 90 c || in_range 97 122 c)%bool.

(** The class [[,.!?;:]]. *)
Definition is_punct (c : code) : bool :=
  (N.eqb c 44 || N.eqb c 46 || N.eqb c 33 || N.eqb c 63
   || N.eqb c 59 || N.eqb c 58)%bool.

Definition star : code := 42.
Definition space : code := 32.

Fixpoint drop_while (p : code -> bool) (s : str) : str :=
  match s with
  | c :: s' => if p c then drop_while p s' else s
  | [] => []
  end.

Fixpoint take_while (p : code -> bool) (s : str) : str :=
  match s with
  | c :: s' => if p c then c :: take_while p s' else []
  | [] => []
  end.

(** [str.strip()]. *)
Definition strip (s : str) : str :=
  rev (drop_while is_space (rev (drop_while is_space s))).

(** Truthiness of a [str]: the empty string is falsy. *)
Definition nonempty (s : str) : bool :=
  match s with [] => false | _ :: _ => true end.

Fixpoint eqb (a b : str) : bool :=
  match a, b with
  | [], [] => true
  | x :: a', y :: b' => (N.eqb x y && eqb a' b')%bool
  | _, _ => false
  end.

End PyStr.
Import PyStr.

(* ================================================================== *)
(** * The fragment of [re] that the service uses *)
(* ================================================================== *)

Module Re.

(** Patterns: a literal, a character class, a greedy [+] over a class,
    concatenation, a capturing group, alternation. *)
Inductive regex : Type :=
| Lit (c : code)
| Cls (p : code -> bool)
| Plus (p : code -> bool)
| Cat (r1 r2 : regex)
| Grp (r : regex)
| Alt (r1 r2 : regex).

Section Matcher.
Context {A : Type}.

(** Greedy repetition of a class with backtracking: take the longest
    run first, fall back one character at a time while the rest of the
    pattern (the continuation) fails. *)
Fixpoint star_cls (p : code -> bool) (s : str) (k : str -> option A)
  : option A :=
  match s with
  | c :: s' =>
      if p c then
        match star_cls p s' k with
        | Some r => Some r
        | None => k s
        end
      else k s
  | [] => k []
  end.

(** Backtracking matcher anchored at the head of [s]; [g] are the
    groups captured so far, [k] is the rest of the pattern. *)
Fixpoint rmatch (r : regex) (s : str) (g : list str)
         (k : str -> list str -> option A) : option A :=
  match r with
  | Lit c =>
      match s with
      | c' :: s' => if N.eqb c c' then k s' g else None
      | [] => None
      end
  | Cls p =>
      match s with
      | c' :: s' => if p c' then k s' g else None
      | [] => None
      end
  | Plus p =>
      match s with
      | c' :: s' => if p c' then star_cls p s' (fun t => k t g) else None
      | [] => None
      end
  | Cat r1 r2 => rmatch r1 s g (fun t g' => rmatch r2 t g' k)
  | Grp r1 =>
      rmatch r1 s g
        (fun t g' => k t (g' ++ [firstn (List.length s - List.length t) s]))
  | Alt r1 r2 =>
      match rmatch r1 s g k with
      | Some x => Some x
      | None => rmatch r2 s g k
      end
  end.
End Matcher.

(** A match at the head of [s]: the unmatched rest and the groups. *)
Definition match_at (r : regex) (s : str) : option (str * list str) :=
  rmatch r s [] (fun t g => Some (t, g)).

(** [re.sub(r, repl, s)]: scan left to right, replace each leftmost
    non-overlapping match by [repl groups], copy every other character.
    [skip] counts the characters of the current match still to pass.
    (None of the patterns of the service matches the empty string; a
    match that consumes nothing is treated as no match.) *)
Fixpoint sub_from (r : regex) (repl : list str -> str) (skip : nat)
         (s : str) : str :=
  match s with
  | [] => []
  | c :: s' =>
      match skip with
      | S n => sub_from r repl n s'
      | O =>
          match match_at r s with
          | Some (t, g) =>
              match List.length s - List.length t with
              | S n => repl g ++ sub_from r repl n s'
              | O => c :: sub_from r repl O s'
              end
          | None => c :: sub_from r repl O s'
          end
      end
  end.

Definition sub (r : regex) (repl : list str -> str) (s : str) : str :=
  sub_from r repl O s.

(** [re.search(r, s)] as a truth value. *)
Fixpoint search (r : regex) (s : str) : bool :=
  match match_at r s with
  | Some _ => true
  | None => match s with [] => false | _ :: s' => search r s' end
  end.

(** Under [re.IGNORECASE], the match of a lower-case ASCII letter [c] of
    a pattern: the letter, its upper-case form, and the non-ASCII
    characters whose simple case mapping is [c]. *)
Definition ci (c : code) : code -> bool :=
  fun x =>
    (N.eqb x c || N.eqb (x + 32) c
     || (N.eqb c 105 && (N.eqb x 304 || N.eqb x 305))
     || (N.eqb c 107 && N.eqb x 8490)
     || (N.eqb c 115 && N.eqb x 383))%N%bool.

(** A literal word (not empty) under [re.IGNORECASE]. *)
Fixpoint word_ci (w : str) : regex :=
  match w with
  | [] => Cls (fun _ => false)
  | [c] => Cls (ci c)
  | c :: w' => Cat (Cls (ci c)) (word_ci w')
  end.

(** The text starts with the word [w], case ignored. *)
Fixpoint starts_with_ci (w : str) (s : str) : bool :=
  match w, s with
  | [], _ => true
  | c :: w', x :: s' => ci c x && starts_with_ci w' s'
  | _ :: _, [] => false
  end.

(** The word [w] occurs in the text, case ignored. *)
Fixpoint contains_ci (w : str) (s : str) : bool :=
  starts_with_ci w s
  || match s with [] => false | _ :: s' => contains_ci w s' end.

End Re.

(* ================================================================== *)
(** * Python values, exceptions, console output *)
(* ================================================================== *)

Module Py.

(** The values that cross the boundary of the service. A [float] is
    [mant * 2^exp]; a [dict] keeps its insertion order. *)
#[local] Unset Elimination Schemes.
Inductive pyval : Type :=
| VNone
| VBool (b : bool)
| VInt (z : Z)
| VFloat (mant exp : Z)
| VStr (s : str)
| VDict (d : list (string * pyval)).
#[local] Set Elimination Schemes.

Definition dict := list (string * pyval).

(** [d.get(key, default)]. *)
Fixpoint get (d : dict) (key : string) (default : pyval) : pyval :=
  match d with
  | [] => default
  | (k, v) :: d' => if String.eqb k key then v else get d' key default
  end.

(** Truth value of an object, as [if x:] and [not x] test it. *)
Definition truthy (v : pyval) : bool :=
  match v with
  | VNone => false
  | VBool b => b
  | VInt z => negb (Z.eqb z 0)
  | VFloat m _ => negb (Z.eqb m 0)
  | VStr s => nonempty s
  | VDict d => match d with [] => false | _ :: _ => true end
  end.

(** Instances of [Exception]: what a failing library call raises.
    [ConnectionError] is [socketio.exceptions.ConnectionError]. *)
Inductive exn : Type :=
| ConnectionError (msg : str)
| RuntimeError (msg : str)
| TypeError (msg : str)
| OtherError (cls : string) (msg : str).

Definition is_connection_error (e : exn) : bool :=
  match e with ConnectionError _ => true | _ => false end.

(** How a call ends. *)
Inductive outcome (A : Type) : Type :=
| Returned (a : A)
| Raised (e : exn).
Arguments Returned {A} a.
Arguments Raised {A} e.

(** [try: body  except Exception as e: handler(e)] over a state [S]. *)
Definition try_except {S A : Type}
           (body : S -> outcome A * S)
           (handler : exn -> S -> outcome A * S) (st : S)
  : outcome A * S :=
  match body st with
  | (Returned a, st') => (Returned a, st')
  | (Raised e, st') => handler e st'
  end.

End Py.
Import Py.

(* ================================================================== *)
(** * director_bridge.py *)
(* ================================================================== *)

Module DirectorBridge.

(** Lines that the module prints. *)
Inductive line : Type :=
| Connecting
| ConnectionFailed (failures wait : nat) (e : exn)
| UnexpectedError (e : exn)
| DropEvent (event : string)
| EmitError (event : string) (e : exn).

(** The module's [sio] client and its console. [sent] records every
    event that [sio.emit] wrote, in order. [faults] is the behaviour of
    the transport at the coming calls of [sio.emit]: [Some e] makes the
    call raise [e] and write nothing, [None] (or an exhausted list) lets
    the write through. *)
Record state : Type := {
  connected : bool;
  sent : list (string * dict);
  faults : list (option exn);
  stdout : list line
}.

Definition print (l : line) (st : state) : state :=
  {| connected := connected st; sent := sent st; faults := faults st;
     stdout := stdout st ++ [l] |}.

(** [sio.emit(event, payload)]. *)
Definition sio_emit (event : string) (payload : dict) (st : state)
  : outcome unit * state :=
  match faults st with
  | Some e :: rest =>
      (Raised e,
       {| connected := connected st; sent := sent st; faults := rest;
          stdout := stdout st |})
  | _ =>
      (Returned tt,
       {| connected := connected st;
          sent := sent st ++ [(event, payload)];
          faults := tl (faults st); stdout := stdout st |})
  end.

Definition _safe_emit (event : string) (payload : dict) (st : state)
  : outcome unit * state :=
  try_except
    (fun st =>
       if connected st then sio_emit event payload st
       else (Returned tt, print (DropEvent event) st))
    (fun e st => (Returned tt, print (EmitError event e) st))
    st.

Definition twitch_message_payload (username message : str) : dict :=
  [("username", VStr username); ("message", VStr message)]%string.

Definition emit_twitch_message (username message : str) (st : state)
  : outcome unit * state :=
  _safe_emit "twitch_message" (twitch_message_payload username message) st.

Definition scored_event_payload (username message : str)
           (is_mention : bool) : dict :=
  [("source_str",
    VStr (if is_mention then lit "TWITCH_MENTION" else lit "TWITCH_CHAT"));
   ("text", VStr message);
   ("metadata",
    VDict [("username", VStr username);
           ("mentioned_bot", VBool is_mention);
           ("message_length", VInt (Z.of_nat (List.length message)));
           ("relevance", VFloat 1 (-1))]);
   ("username", VStr username)]%string.

Definition emit_scored_event (username message : str) (is_mention : bool)
           (st : state) : outcome unit * state :=
  _safe_emit "event" (scored_event_payload username message is_mention) st.

(** ** The connection loop

    What the loop does is a trace of its calls; time is counted in
    half seconds, so [time.sleep(0.5)] is [Sleep 1] and [time.sleep(1)]
    is [Sleep 2]. *)
Inductive action : Type :=
| Connect
| Sleep (halfsecs : nat)
| Print (l : line).

(** What the loop meets in one pass of [while _is_running]. *)
Inductive round : Type :=
| Idle
    (** [sio.connected] is already true at the head of the loop *)
| Up (polls : nat)
    (** [sio.connect] returns and the connection is seen up, with
        [_is_running] set, at [polls] polls *)
| Raises (e : exn) (stop_at : option nat).
    (** [sio.connect] raises [e]; [stop_at = Some k] when [stop()] is
        seen at the [k]-th check of the backoff that follows *)

(** [for _ in range(n): if not _is_running: return; time.sleep(0.5)]
    from the [i]-th pass on: the sleeps made, and whether the loop ran
    to its end. *)
Fixpoint backoff_sleeps (n i : nat) (stop_at : option nat)
  : list action * bool :=
  match n with
  | O => ([], true)
  | S n' =>
      if match stop_at with Some k => Nat.eqb k i | None => false end
      then ([], false)
      else let (tr, ok) := backoff_sleeps n' (S i) stop_at in
           (Sleep 1 :: tr, ok)
  end.

(** One pass of the body of [while _is_running]: the new value of
    [failures], the calls made, and whether the function goes on. *)
Definition pass (r : round) (failures : nat) : nat * list action * bool :=
  match r with
  | Idle => (failures, [Sleep 2], true)
  | Up polls =>
      (O, Print Connecting :: Connect :: repeat (Sleep 2) polls, true)
  | Raises e stop_at =>
      if is_connection_error e then
        let failures := failures + 1 in
        let wait := Nat.min (5 * failures) 30 in
        let (tr, ok) := backoff_sleeps (wait * 2) O stop_at in
        (failures,
         Print Connecting :: Connect
           :: Print (ConnectionFailed failures wait e) :: tr,
         ok)
      else
        (failures,
         [Print Connecting; Connect; Print (UnexpectedError e); Sleep 10],
         true)
  end.

Fixpoint connector_loop (script : list round) (failures : nat)
  : nat * list action :=
  match script with
  | [] => (failures, [])
  | r :: script' =>
      match pass r failures with
      | (failures', tr, true) =>
          let (f, tr') := connector_loop script' failures' in
          (f, tr ++ tr')
      | (failures', tr, false) => (failures', tr)
      end
  end.

(** [_run_connector()] against the rounds it meets before [stop()]:
    the final value of [failures] and the calls made. *)
Definition _run_connector (script : list round) : nat * list action :=
  connector_loop script O.

(** Half seconds slept since the last call of [sio.connect]. *)
Fixpoint slept_since_connect_from (acc : nat) (tr : list action) : nat :=
  match tr with
  | [] => acc
  | Connect :: tr' => slept_since_connect_from O tr'
  | Sleep n :: tr' => slept_since_connect_from (acc + n) tr'
  | Print _ :: tr' => slept_since_connect_from acc tr'
  end.

Definition retry_delay (tr : list action) : nat :=
  slept_since_connect_from O tr.

(** Rounds during which [stop()] is not seen. *)
Definition uninterrupted (r : round) : bool :=
  match r with
  | Raises _ (Some _) => false
  | _ => true
  end.

(** Rounds in which no call of [sio.connect] succeeds. *)
Definition failing (r : round) : bool :=
  match r with
  | Up _ => false
  | _ => true
  end.

(** The recognized connection failures among some rounds. *)
Fixpoint recognized_failures (script : list round) : nat :=
  match script with
  | [] => O
  | Raises e _ :: script' =>
      (if is_connection_error e then 1 else 0) + recognized_failures script'
  | _ :: script' => recognized_failures script'
  end.

(** [stop()]: an open connection is closed. The flag [_is_running] that
    the call clears is what ends the script of [_run_connector]. *)
Definition stop (st : state) : state :=
  if connected st then
    {| connected := false; sent := sent st; faults := faults st;
       stdout := stdout st |}
  else st.

End DirectorBridge.

(* ================================================================== *)
(** * twitch_client.py *)
(* ================================================================== *)

Module TwitchClient.

(** A chat message of the provider: [msg.user.name] and [msg.text]. *)
Record ChatMessage : Type := {
  user_name : str;
  text : str
}.

Inductive line : Type :=
| ReAuthenticated
| ChatStarted
| Sent (message : str)
| SendError (e : exn)
| NotReady.

(** The provider's [Chat] session: every call of
    [send_message(TARGET_CHANNEL, message)] it received, in order, with
    the exception the call raised, if any (a call that raised nothing put
    its message on the channel). *)
Record Chat : Type := {
  calls : list (str * option exn)
}.

(** The module globals. The hand-off of [run_coroutine_threadsafe] into
    the loop and the [asyncio.Queue] behind it are both first-in
    first-out; [_message_queue] stands for the two together. *)
Record state : Type := {
  _chat : option Chat;
  _event_loop : option unit;
  _message_queue : option (list str);
  _is_running : bool;
  _auth_tokens : option (str * str);
  stdout : list line
}.

Definition print (l : line) (st : state) : state :=
  {| _chat := _chat st; _event_loop := _event_loop st;
     _message_queue := _message_queue st; _is_running := _is_running st;
     _auth_tokens := _auth_tokens st; stdout := stdout st ++ [l] |}.

Definition set_queue (q : option (list str)) (st : state) : state :=
  {| _chat := _chat st; _event_loop := _event_loop st;
     _message_queue := q; _is_running := _is_running st;
     _auth_tokens := _auth_tokens st; stdout := stdout st |}.

Definition set_chat (c : option Chat) (st : state) : state :=
  {| _chat := c; _event_loop := _event_loop st;
     _message_queue := _message_queue st; _is_running := _is_running st;
     _auth_tokens := _auth_tokens st; stdout := stdout st |}.

Definition set_event_loop (l : option unit) (st : state) : state :=
  {| _chat := _chat st; _event_loop := l;
     _message_queue := _message_queue st; _is_running := _is_running st;
     _auth_tokens := _auth_tokens st; stdout := stdout st |}.

Definition set_running (b : bool) (st : state) : state :=
  {| _chat := _chat st; _event_loop := _event_loop st;
     _message_queue := _message_queue st; _is_running := b;
     _auth_tokens := _auth_tokens st; stdout := stdout st |}.

Section Config.
(** [BOT_NAME] of [config] and the built-in [str.lower]. *)
Variable BOT_NAME : str.
Variable lower : str -> str.

(** The registered callback acts on the rest of the process, [W]. *)
Context {W : Type}.

(** [_on_message(msg)] with [_on_message_cb] as registered. *)
Definition _on_message (_on_message_cb : option (ChatMessage -> W -> W))
           (msg : ChatMessage) (w : W) : W :=
  if PyStr.eqb (lower (user_name msg)) (lower BOT_NAME) then w
  else match _on_message_cb with
       | Some cb => cb msg w
       | None => w
       end.
End Config.

(** [_chat.send_message(TARGET_CHANNEL, message)]; [fault] is what the
    provider does with this call. *)
Definition chat_send (message : str) (fault : option exn) (c : Chat)
  : outcome unit * Chat :=
  let c' := {| calls := calls c ++ [(message, fault)] |} in
  match fault with
  | None => (Returned tt, c')
  | Some e => (Raised e, c')
  end.

(** One pass of the body of [while _is_running] in [_sender_loop]: the
    wait on the queue times out when it is empty; otherwise the head is
    taken and sent, and an exception of the send is printed and dropped.
    Without a queue the call of [get] raises. *)
Definition sender_pass (fault : option exn) (st : state)
  : outcome unit * state :=
  match _message_queue st with
  | None =>
      (Raised (OtherError "AttributeError"
                 (lit "'NoneType' object has no attribute 'get'")), st)
  | Some [] => (Returned tt, st)
  | Some (message :: rest) =>
      let st := set_queue (Some rest) st in
      match _chat st with
      | Some c =>
          try_except
            (fun st =>
               match chat_send message fault c with
               | (Returned _, c') =>
                   (Returned tt,
                    print (Sent (firstn 80 message))
                      (set_chat (Some c') st))
               | (Raised e, c') => (Raised e, set_chat (Some c') st)
               end)
            (fun e st => (Returned tt, print (SendError e) st))
            st
      | None => (Returned tt, st)
      end
  end.

(** [_sender_loop()] over the passes it makes before [_is_running] is
    cleared; [faults] gives the provider's answer at each. *)
Fixpoint _sender_loop (faults : list (option exn)) (st : state)
  : outcome unit * state :=
  match faults with
  | [] => (Returned tt, st)
  | f :: faults' =>
      if _is_running st then
        match sender_pass f st with
        | (Returned _, st') => _sender_loop faults' st'
        | (Raised e, st') => (Raised e, st')
        end
      else (Returned tt, st)
  end.

(** [send_message(text)]. *)
Definition send_message (text : str) (st : state) : state :=
  match _event_loop st, _message_queue st with
  | Some _, Some q => set_queue (Some (q ++ [text])) st
  | _, _ => print NotReady st
  end.

(** [_run()]: [setup] is the exception, if any, that opening the
    provider session raises. *)
Definition _run (setup : option exn) (faults : list (option exn))
           (st : state) : outcome unit * state :=
  match _auth_tokens st with
  | None =>
      (Raised (RuntimeError
                 (lit "authenticate() must be awaited before start()")),
       st)
  | Some _ =>
      let st := set_queue (Some []) st in
      match setup with
      | Some e => (Raised e, st)
      | None =>
          let st := print ReAuthenticated st in
          let st := set_chat (Some {| calls := [] |}) st in
          let st := print ChatStarted st in
          _sender_loop faults st
      end
  end.

Definition _thread_target (setup : option exn)
           (faults : list (option exn)) (st : state)
  : outcome unit * state :=
  _run setup faults (set_event_loop (Some tt) st).

(** A [threading.Thread] that has been started: how its target ended.
    An exception of the target ends that thread and goes no further; the
    thread that called [Thread.start()] goes on. *)
Record Thread : Type := {
  name : string;
  target_result : outcome unit
}.

(** [start()]: the state is the one the new thread leaves behind, the
    result is what the caller of [start()] gets. *)
Definition start (setup : option exn) (faults : list (option exn))
           (st : state) : outcome Thread * state :=
  let st := set_running true st in
  let (r, st) := _thread_target setup faults st in
  let t := {| name := "TwitchClient"; target_result := r |} in
  (Returned t, st).

(** ** Producers and the sender loop side by side

    A schedule is one interleaving of the calls of [send_message] made
    by the callers (numbered) with the passes of the sender loop. A pass
    that raises ends the loop; as nothing re-creates the queue it lacked,
    later passes find the same state and change nothing either. A pass is
    one step here, test of [_is_running] and wait on the queue together;
    that is how a running loop behaves. What [stop()] does to a pass under
    way is told by [play] below, which keeps the two apart. *)
Inductive event : Type :=
| Enqueue (caller : nat) (text : str)
| Drain (fault : option exn).

Definition step (e : event) (st : state) : state :=
  match e with
  | Enqueue _ text => send_message text st
  | Drain fault =>
      if _is_running st then snd (sender_pass fault st) else st
  end.

Fixpoint run (schedule : list event) (st : state) : state :=
  match schedule with
  | [] => st
  | e :: schedule' => run schedule' (step e st)
  end.

(** The texts enqueued by a schedule, in its order, and those of one
    caller. *)
Fixpoint enqueued (schedule : list event) : list str :=
  match schedule with
  | [] => []
  | Enqueue _ text :: schedule' => text :: enqueued schedule'
  | Drain _ :: schedule' => enqueued schedule'
  end.

(** The texts handed to the provider so far, and those still queued. *)
Definition handed (st : state) : list str :=
  match _chat st with
  | Some c => map fst (calls c)
  | None => []
  end.

Definition pending (st : state) : list str :=
  match _message_queue st with
  | Some q => q
  | None => []
  end.

(** The client is started: the loop, the queue and the session exist. *)
Definition started (st : state) : Prop :=
  _event_loop st <> None /\ _message_queue st <> None /\ _chat st <> None.

(** ** Credentials and shutdown *)

(** Lines printed by [authenticate] and [stop]; the two functions return
    what they print beside the state. *)
Inductive lifecycle_line : Type :=
| OAuthStarting
| OAuthComplete
| OAuthFailed (e : exn)
| Stopped.

(** What the OAuth collaborator does at the three awaited calls of
    [authenticate]: [Twitch(APP_ID, APP_SECRET)], [auth.authenticate()]
    and [twitch.close()]. *)
Record oauth : Type := {
  open_session : option exn;
  user_tokens : outcome (str * str);
  close_session : option exn
}.

(** [authenticate()]. *)
Definition authenticate (o : oauth) (st : state)
  : outcome bool * state * list lifecycle_line :=
  let failed e := (Returned false, st, [OAuthStarting; OAuthFailed e]) in
  match open_session o with
  | Some e => failed e
  | None =>
      match user_tokens o with
      | Raised e => failed e
      | Returned (token, refresh_token) =>
          match close_session o with
          | Some e => failed e
          | None =>
              (Returned true,
               {| _chat := _chat st; _event_loop := _event_loop st;
                  _message_queue := _message_queue st;
                  _is_running := _is_running st;
                  _auth_tokens := Some (token, refresh_token);
                  stdout := stdout st |},
               [OAuthStarting; OAuthComplete])
          end
      end
  end.

(** [stop()]. The call of [_chat.stop()] closes the provider session; the
    record of the sends it received stays as it is. *)
Definition stop (st : state) : state * list lifecycle_line :=
  (set_running false st, [Stopped]).

(** ** The sender loop with its test and its wait apart

    [_sender_loop] tests [_is_running], then waits up to a second on the
    queue, and does not test again before it sends what the wait gave. *)
Inductive position : Type :=
| AtTest
    (** about to evaluate [while _is_running] *)
| InWait
    (** inside [asyncio.wait_for(_message_queue.get(), timeout=1.0)] *)
| Exited.
    (** past the loop *)

(** What may happen next: a caller runs [send_message(text)], a caller
    runs [stop()], the loop evaluates its test, or the wait of the loop
    ends (with the head of the queue when there is one, by the timeout
    otherwise). *)
Inductive moment : Type :=
| Sends (text : str)
| Stops
| Tests
| Wakes (fault : option exn).

Definition moment_step (m : moment) (cfg : state * position)
  : state * position :=
  let (st, pos) := cfg in
  match m with
  | Sends text => (send_message text st, pos)
  | Stops => (fst (stop st), pos)
  | Tests =>
      match pos with
      | AtTest => (st, if _is_running st then InWait else Exited)
      | _ => cfg
      end
  | Wakes fault =>
      match pos with
      | InWait =>
          match sender_pass fault st with
          | (Returned _, st') => (st', AtTest)
          | (Raised _, st') => (st', Exited)
          end
      | _ => cfg
      end
  end.

Fixpoint play (moments : list moment) (cfg : state * position)
  : state * position :=
  match moments with
  | [] => cfg
  | m :: moments' => play moments' (moment_step m cfg)
  end.

(** The sends that a pass under way can still make. *)
Definition sends_under_way (pos : position) : nat :=
  match pos with InWait => 1 | _ => 0 end.

(** The warnings "not ready" among some printed lines. *)
Definition not_ready_count (out : list line) : nat :=
  List.length
    (filter (fun l => match l with NotReady => true | _ => false end) out).

(** The calls of [send_message] in a schedule. *)
Fixpoint enqueue_count (schedule : list event) : nat :=
  match schedule with
  | [] => O
  | Enqueue _ _ :: schedule' => S (enqueue_count schedule')
  | Drain _ :: schedule' => enqueue_count schedule'
  end.

End TwitchClient.

(* ================================================================== *)
(** * main.py *)
(* ================================================================== *)

Module Main.
Import Re.

(** [re.compile(r"(nami|peepingnami)", re.IGNORECASE)]. *)
Definition _MENTION_RE : regex :=
  Grp (Alt (word_ci (lit "nami")) (word_ci (lit "peepingnami"))).

(** The three patterns of [_strip_sound_effects]:
    [\*[A-Za-z]+\*], [\s+] and [\s+([,.!?;:])]. *)
Definition fx_re : regex :=
  Cat (Lit star) (Cat (Plus is_letter) (Lit star)).
Definition ws_re : regex := Plus is_space.
Definition ws_punct_re : regex := Cat (Plus is_space) (Grp (Cls is_punct)).

(** The replacement template [\1]. *)
Definition group1 (g : list str) : str := nth 0 g [].

Definition _strip_sound_effects (text : str) : str :=
  let text := sub fx_re (fun _ => lit "") text in
  let text := strip (sub ws_re (fun _ => lit " ") text) in
  let text := sub ws_punct_re group1 text in
  text.

(** The three passes of [_strip_sound_effects], one by one. *)
Definition strip_annotations (text : str) : str :=
  sub fx_re (fun _ => lit "") text.
Definition collapse_whitespace (text : str) : str :=
  sub ws_re (fun _ => lit " ") text.
Definition attach_punctuation (text : str) : str :=
  sub ws_punct_re group1 text.

(** ** Vocabulary for the shape of cleaned text *)

(** The text starts with a whitespace character. *)
Definition head_space (s : str) : bool :=
  match s with c :: _ => is_space c | [] => false end.

(** The text starts with one of [,.!?;:]. *)
Definition head_punct (s : str) : bool :=
  match s with c :: _ => is_punct c | [] => false end.

(** Every whitespace character is a plain space and the character after
    it, if any, is not whitespace. *)
Fixpoint collapsed (s : str) : bool :=
  match s with
  | [] => true
  | c :: s' =>
      (if is_space c then N.eqb c space && negb (head_space s') else true)
      && collapsed s'
  end.

(** The last character, if any, is not whitespace. *)
Fixpoint ends_clear (s : str) : bool :=
  match s with
  | [] => true
  | c :: s' =>
      match s' with
      | [] => negb (is_space c)
      | _ :: _ => ends_clear s'
      end
  end.

(** No whitespace character stands immediately before one of
    [,.!?;:]. *)
Fixpoint no_space_before_punct (s : str) : bool :=
  match s with
  | [] => true
  | c :: s' => negb (is_space c && head_punct s') && no_space_before_punct s'
  end.

(** The text still holds a match of [\*[A-Za-z]+\*]. *)
Definition has_annotation (s : str) : bool := search fx_re s.

(** The second and third passes together. *)
Definition normalise (s : str) : str :=
  attach_punctuation (strip (collapse_whitespace s)).

(** A character that is not whitespace. *)
Definition visible (c : code) : bool := negb (is_space c).


(** Cleaning [s] twice gives what cleaning it once gives. *)
Definition idempotent_at (s : str) : Prop :=
  _strip_sound_effects (_strip_sound_effects s) = _strip_sound_effects s.


Inductive line : Type :=
| Forwarded (chat_msg : str).

(** What the handlers of [main] act on: the two client modules and the
    console of [main]. *)
Record world : Type := {
  twitch : TwitchClient.state;
  director : DirectorBridge.state;
  stdout : list line
}.

(** [_strip_sound_effects(reply)] on whatever the payload holds:
    [re.sub] rejects what is not a string. *)
Definition strip_sound_effects_of (reply : pyval) : outcome str :=
  match reply with
  | VStr s => Returned (_strip_sound_effects s)
  | _ => Raised (TypeError (lit "expected string or bytes-like object"))
  end.

Definition _handle_bot_reply (data : dict) (w : world)
  : outcome unit * world :=
  let reply := get data "reply" (VStr (lit "")) in
  if negb (truthy reply) then (Returned tt, w)
  else
    match (if truthy (get data "is_censored" VNone)
           then Returned (lit "*censored*")
           else strip_sound_effects_of reply) with
    | Raised e => (Raised e, w)
    | Returned chat_msg =>
        if nonempty chat_msg then
          (Returned tt,
           {| twitch := TwitchClient.send_message chat_msg (twitch w);
              director := director w;
              stdout := stdout w ++ [Forwarded (firstn 80 chat_msg)] |})
        else (Returned tt, w)
    end.

Definition _handle_twitch_message (msg : TwitchClient.ChatMessage)
           (st : DirectorBridge.state)
  : outcome unit * DirectorBridge.state :=
  let username := TwitchClient.user_name msg in
  let text := TwitchClient.text msg in
  let is_mention := search _MENTION_RE text in
  match DirectorBridge.emit_twitch_message username text st with
  | (Raised e, st) => (Raised e, st)
  | (Returned _, st) =>
      DirectorBridge.emit_scored_event username text is_mention st
  end.

(** The two events of one chat message, as they appear on the wire. *)
Definition events_of (msg : TwitchClient.ChatMessage)
  : list (string * dict) :=
  [("twitch_message"%string,
    DirectorBridge.twitch_message_payload
      (TwitchClient.user_name msg) (TwitchClient.text msg));
   ("event"%string,
    DirectorBridge.scored_event_payload
      (TwitchClient.user_name msg) (TwitchClient.text msg)
      (search _MENTION_RE (TwitchClient.text msg)))].

(** Handling [msg] from [st] wrote exactly one [twitch_message] and then
    exactly one [event] for it, and nothing else. *)
Definition emitted_once_each_in_order (msg : TwitchClient.ChatMessage)
           (st : DirectorBridge.state) : Prop :=
  DirectorBridge.sent (snd (_handle_twitch_message msg st))
  = DirectorBridge.sent st ++ events_of msg.

(** Handling [data] from [w] passed the censorship placeholder to the
    chat provider's send operation. *)
Definition forwards_placeholder (data : dict) (w : world) : Prop :=
  twitch (snd (_handle_bot_reply data w))
  = TwitchClient.send_message (lit "*censored*") (twitch w).

(** ** The control plane and the lifetime of the service *)

(** The body of [POST /chat/send]. *)
Record SendMessagePayload : Type := {
  message : str;
  username : option str
}.

(** [send_chat_message(payload)]: the response and the client after. *)
Definition send_chat_message (payload : SendMessagePayload)
           (tc : TwitchClient.state) : dict * TwitchClient.state :=
  let msg :=
    match username payload with
    | Some u =>
        if nonempty u then lit "@" ++ u ++ lit " " ++ message payload
        else message payload
    | None => message payload
    end in
  let tc := TwitchClient.send_message msg tc in
  ([("ok", VBool true); ("sent", VStr msg)]%string, tc).

Inductive lifespan_line : Type :=
| Client (l : TwitchClient.lifecycle_line)
| AuthFailed
| Ready
| ServiceStopped.

(** The process: the worlds of the handlers, the two callback globals
    ([_on_bot_reply_cb] of [director_bridge], [_on_message_cb] of
    [twitch_client]), the threads started and the console of [lifespan]. *)
Record process : Type := {
  handlers_world : world;
  _on_bot_reply_cb : option (dict -> world -> outcome unit * world);
  _on_message_cb :
    option (TwitchClient.ChatMessage -> DirectorBridge.state ->
            outcome unit * DirectorBridge.state);
  _connector_thread : bool;
  chat_thread : option TwitchClient.Thread;
  console : list lifespan_line
}.

(** [director_bridge.on_bot_reply(data)]. *)
Definition on_bot_reply (data : dict) (p : process)
  : outcome unit * process :=
  match _on_bot_reply_cb p with
  | Some cb =>
      let (r, w) := cb data (handlers_world p) in
      (r,
       {| handlers_world := w;
          _on_bot_reply_cb := _on_bot_reply_cb p;
          _on_message_cb := _on_message_cb p;
          _connector_thread := _connector_thread p;
          chat_thread := chat_thread p;
          console := console p |})
  | None => (Returned tt, p)
  end.

(** [lifespan] up to its [yield]. [o], [setup] and [faults] are what the
    OAuth collaborator and the provider do. [authenticate] catches what
    it meets, so its result is a truth value. *)
Definition lifespan_startup (o : TwitchClient.oauth) (setup : option exn)
           (faults : list (option exn)) (p : process) : process :=
  let w := handlers_world p in
  match TwitchClient.authenticate o (twitch w) with
  | (r, tc, printed) =>
      let ok := match r with Returned b => b | Raised _ => false end in
      let out := console p ++ map Client printed
                 ++ (if ok then [] else [AuthFailed]) in
      let (thread, tc) :=
        if ok then
          match TwitchClient.start setup faults tc with
          | (Returned t, tc') => (Some t, tc')
          | (Raised _, tc') => (None, tc')
          end
        else (chat_thread p, tc) in
      {| handlers_world :=
           {| twitch := tc; director := director w; stdout := stdout w |};
         _on_bot_reply_cb := Some _handle_bot_reply;
         _on_message_cb := Some _handle_twitch_message;
         _connector_thread := true;
         chat_thread := thread;
         console := out ++ [Ready] |}
  end.

(** [lifespan] after its [yield]. *)
Definition lifespan_shutdown (p : process) : process :=
  let w := handlers_world p in
  let (tc, printed) := TwitchClient.stop (twitch w) in
  {| handlers_world :=
       {| twitch := tc; director := DirectorBridge.stop (director w);
          stdout := stdout w |};
     _on_bot_reply_cb := _on_bot_reply_cb p;
     _on_message_cb := _on_message_cb p;
     _connector_thread := _connector_thread p;
     chat_thread := chat_thread p;
     console := console p ++ map Client printed ++ [ServiceStopped] |}.

(** The precondition error of [twitch_client._run]. *)
Definition precondition_error : exn :=
  RuntimeError (lit "authenticate() must be awaited before start()").

End Main.

(* ================================================================== *)
(** * Concrete inputs used by the examples below *)
(* ================================================================== *)

Module Samples.

(** A disconnected connector whose transport would raise if called. *)
Definition offline : DirectorBridge.state :=
  {| DirectorBridge.connected := false;
     DirectorBridge.sent := [];
     DirectorBridge.faults := [Some (RuntimeError [])];
     DirectorBridge.stdout := [] |}.

(** A connected connector with a healthy transport. *)
Definition online : DirectorBridge.state :=
  {| DirectorBridge.connected := true;
     DirectorBridge.sent := [];
     DirectorBridge.faults := [];
     DirectorBridge.stdout := [] |}.

Definition refused : DirectorBridge.round :=
  DirectorBridge.Raises (ConnectionError (lit "Connection refused")) None.

Definition crashed : DirectorBridge.round :=
  DirectorBridge.Raises (OtherError "ValueError" (lit "bad url")) None.

(** The module globals of [twitch_client] as the file leaves them. *)
Definition fresh : TwitchClient.state :=
  {| TwitchClient._chat := None;
     TwitchClient._event_loop := None;
     TwitchClient._message_queue := None;
     TwitchClient._is_running := false;
     TwitchClient._auth_tokens := None;
     TwitchClient.stdout := [] |}.

(** A started client with an empty queue. *)
Definition ready : TwitchClient.state :=
  {| TwitchClient._chat := Some {| TwitchClient.calls := [] |};
     TwitchClient._event_loop := Some tt;
     TwitchClient._message_queue := Some [];
     TwitchClient._is_running := true;
     TwitchClient._auth_tokens := Some (lit "token", lit "refresh");
     TwitchClient.stdout := [] |}.

(** Two callers enqueue while the loop drains; one send is rejected. *)
Definition schedule0 : list TwitchClient.event :=
  [TwitchClient.Enqueue 0 (lit "a"); TwitchClient.Enqueue 1 (lit "b");
   TwitchClient.Drain None; TwitchClient.Enqueue 0 (lit "c");
   TwitchClient.Drain (Some (OtherError "TwitchAPIException" (lit "rate limit")));
   TwitchClient.Enqueue 1 (lit "d"); TwitchClient.Drain None].

Definition hello : TwitchClient.ChatMessage :=
  {| TwitchClient.user_name := lit "viewer";
     TwitchClient.text := lit "hello nami" |}.

Definition own : TwitchClient.ChatMessage :=
  {| TwitchClient.user_name := lit "PeepingNami";
     TwitchClient.text := lit "hi chat" |}.

(** [str.lower] on ASCII text. *)
Definition ascii_lower (s : str) : str :=
  map (fun c => if is_letter c && N.ltb c 97 then (c + 32)%N else c) s.

(** A callback that records the messages it is called with. *)
Definition record_message (msg : TwitchClient.ChatMessage)
           (seen : list TwitchClient.ChatMessage)
  : list TwitchClient.ChatMessage :=
  seen ++ [msg].

(** The example of the specification and its parts. *)
Definition greeting : str := lit "Hi there *laughs* , friend !".

(** An annotation that opens inside a pair of asterisks. *)
Definition nested : str := lit "**a*b*".


Definition world0 : Main.world :=
  {| Main.twitch := ready; Main.director := online; Main.stdout := [] |}.

Definition censored_reply : dict :=
  [("reply", VStr (lit "some *laughs* text")); ("is_censored", VBool true)]%string.

Definition censored_empty_reply : dict :=
  [("reply", VStr (lit "")); ("is_censored", VBool true)]%string.

(** An OAuth flow that succeeds, and one in which the user declines. *)
Definition oauth_ok : TwitchClient.oauth :=
  {| TwitchClient.open_session := None;
     TwitchClient.user_tokens := Returned (lit "token", lit "refresh");
     TwitchClient.close_session := None |}.

Definition oauth_declined : TwitchClient.oauth :=
  {| TwitchClient.open_session := None;
     TwitchClient.user_tokens :=
       Raised (OtherError "TwitchAPIException" (lit "access denied"));
     TwitchClient.close_session := None |}.

(** The process before [lifespan] runs. *)
Definition process0 : Main.process :=
  {| Main.handlers_world :=
       {| Main.twitch := fresh; Main.director := offline;
          Main.stdout := [] |};
     Main._on_bot_reply_cb := None;
     Main._on_message_cb := None;
     Main._connector_thread := false;
     Main.chat_thread := None;
     Main.console := [] |}.

Definition plain_reply : dict :=
  [("reply", VStr (lit "well  done *claps* !"))]%string.

Definition blank_reply : dict :=
  [("reply", VStr (lit "   ")); ("is_censored", VBool false)]%string.

Definition manual_send : Main.SendMessagePayload :=
  {| Main.message := lit "hello"; Main.username := Some (lit "viewer") |}.

End Samples.

(* ================================================================== *)
(** * Properties of the event-channel send operations *)
(* ================================================================== *)

Module DirectorBridgeFacts.
Import DirectorBridge Samples.

(** C6. A send while the connector is disconnected returns normally
    without calling the transport: nothing is written, the transport is
    not touched (so nothing can block or raise), the state keeps no copy
    of the message to send later, and one warning that names the dropped
    event is printed. *)
Theorem safe_emit_disconnected_drops :
  forall (event : string) (payload : dict) (st : state),
    connected st = false ->
    _safe_emit event payload st = (Returned tt, print (DropEvent event) st)
    /\ sent (snd (_safe_emit event payload st)) = sent st
    /\ faults (snd (_safe_emit event payload st)) = faults st
    /\ stdout (snd (_safe_emit event payload st))
       = stdout st ++ [DropEvent event].
Proof.
  intros event payload st Hdown.
  assert (E : _safe_emit event payload st
              = (Returned tt, print (DropEvent event) st)).
  { unfold _safe_emit, try_except. rewrite Hdown. reflexivity. }
  rewrite E. repeat split.
Qed.

Lemma safe_emit_disconnected_drops_witness :
  _safe_emit "event" [] offline
  = (Returned tt, print (DropEvent "event") offline)
  /\ sent (snd (_safe_emit "event" [] offline)) = sent offline
  /\ faults (snd (_safe_emit "event" [] offline)) = faults offline
  /\ stdout (snd (_safe_emit "event" [] offline))
     = stdout offline ++ [DropEvent "event"].
Proof.
  apply (safe_emit_disconnected_drops "event" [] offline).
  reflexivity.
Defined.

Lemma safe_emit_returns :
  forall event payload st, fst (_safe_emit event payload st) = Returned tt.
Proof.
  intros event payload st.
  unfold _safe_emit, try_except, sio_emit.
  destruct (connected st); [ | reflexivity ].
  destruct (faults st) as [ | [ e | ] rest ]; reflexivity.
Qed.

(** C10. The send operations always return normally: whatever the
    connection state and whatever the transport does, the result of
    [_safe_emit], [emit_twitch_message] and [emit_scored_event] is a
    normal return; when the connector is connected and [sio.emit] raises
    [e], nothing is written and the error is printed. *)
Theorem emit_never_raises :
  (forall event payload st, fst (_safe_emit event payload st) = Returned tt)
  /\ (forall username message st,
         fst (emit_twitch_message username message st) = Returned tt)
  /\ (forall username message is_mention st,
         fst (emit_scored_event username message is_mention st)
         = Returned tt)
  /\ (forall event payload e rest written out,
         _safe_emit event payload
           {| connected := true; sent := written;
              faults := Some e :: rest; stdout := out |}
         = (Returned tt,
            {| connected := true; sent := written; faults := rest;
               stdout := out ++ [EmitError event e] |})).
Proof.
  repeat split; intros.
  - apply safe_emit_returns.
  - apply safe_emit_returns.
  - apply safe_emit_returns.
Qed.

End DirectorBridgeFacts.

(* ================================================================== *)
(** * Properties of the connection loop *)
(* ================================================================== *)

Module ConnectorFacts.
Import DirectorBridge Samples.

Lemma backoff_sleeps_uninterrupted :
  forall n i, backoff_sleeps n i None = (repeat (Sleep 1) n, true).
Proof.
  induction n as [ | n IH ]; intro i; simpl.
  - reflexivity.
  - rewrite IH. reflexivity.
Qed.

Lemma pass_goes_on :
  forall r f, uninterrupted r = true -> snd (pass r f) = true.
Proof.
  intros [ | polls | e [ k | ] ] f H; try discriminate; simpl; try reflexivity.
  destruct (is_connection_error e); [ | reflexivity ].
  rewrite backoff_sleeps_uninterrupted. reflexivity.
Qed.

Lemma connector_loop_app :
  forall pre rest f,
    forallb uninterrupted pre = true ->
    connector_loop (pre ++ rest) f
    = (fst (connector_loop rest (fst (connector_loop pre f))),
       snd (connector_loop pre f)
       ++ snd (connector_loop rest (fst (connector_loop pre f)))).
Proof.
  induction pre as [ | r pre IH ]; intros rest f Hpre; simpl.
  - destruct (connector_loop rest f); reflexivity.
  - simpl in Hpre. apply andb_prop in Hpre. destruct Hpre as [Hr Hpre].
    pose proof (pass_goes_on r f Hr) as Hgo.
    destruct (pass r f) as [[f' tr] go]. simpl in Hgo. subst go.
    rewrite (IH rest f' Hpre).
    destruct (connector_loop pre f') as [f1 t1]. simpl.
    rewrite app_assoc. reflexivity.
Qed.

(** Failed rounds leave the counter at its value plus the recognized
    failures among them. *)
Lemma failures_accumulate :
  forall fs f,
    forallb uninterrupted fs = true ->
    forallb failing fs = true ->
    fst (connector_loop fs f) = f + recognized_failures fs.
Proof.
  induction fs as [ | r fs IH ]; intros f Hu Hf; simpl.
  - lia.
  - simpl in Hu, Hf.
    apply andb_prop in Hu. destruct Hu as [Hr Hu].
    apply andb_prop in Hf. destruct Hf as [Hrf Hf].
    destruct r as [ | polls | e [ k | ] ]; try discriminate; simpl.
    + specialize (IH f Hu Hf).
      destruct (connector_loop fs f); simpl in *. lia.
    + destruct (is_connection_error e); simpl.
      * rewrite backoff_sleeps_uninterrupted.
        specialize (IH (f + 1) Hu Hf).
        destruct (connector_loop fs (f + 1)); simpl in *. lia.
      * specialize (IH f Hu Hf).
        destruct (connector_loop fs f); simpl in *. lia.
Qed.

Lemma success_resets :
  forall pre polls f,
    forallb uninterrupted pre = true ->
    fst (connector_loop (pre ++ [Up polls]) f) = 0.
Proof.
  intros pre polls f Hpre.
  rewrite (connector_loop_app pre [Up polls] f Hpre). reflexivity.
Qed.

Lemma slept_app :
  forall t1 t2 acc,
    slept_since_connect_from acc (t1 ++ t2)
    = slept_since_connect_from (slept_since_connect_from acc t1) t2.
Proof.
  induction t1 as [ | a t1 IH ]; intros t2 acc; simpl.
  - reflexivity.
  - destruct a; apply IH.
Qed.

Lemma slept_sleeps :
  forall n acc,
    slept_since_connect_from acc (repeat (Sleep 1) n) = acc + n.
Proof.
  induction n as [ | n IH ]; intro acc; simpl.
  - lia.
  - rewrite IH. lia.
Qed.

(** The delay that follows a failed attempt, given the counter before. *)
Lemma delay_after_failure :
  forall e f t0,
    retry_delay (t0 ++ snd (fst (pass (Raises e None) f)))
    = if is_connection_error e then 2 * Nat.min (5 * (f + 1)) 30 else 10.
Proof.
  intros e f t0. unfold retry_delay. rewrite slept_app. simpl.
  destruct (is_connection_error e); simpl.
  - rewrite backoff_sleeps_uninterrupted. simpl.
    rewrite slept_sleeps. lia.
  - reflexivity.
Qed.

Lemma then_failure :
  forall script e f,
    forallb uninterrupted script = true ->
    fst (connector_loop (script ++ [Raises e None]) f)
    = fst (connector_loop script f)
      + (if is_connection_error e then 1 else 0)
    /\ retry_delay (snd (connector_loop (script ++ [Raises e None]) f))
       = if is_connection_error e
         then 2 * Nat.min (5 * (fst (connector_loop script f) + 1)) 30
         else 10.
Proof.
  intros script e f Hs.
  rewrite (connector_loop_app script [Raises e None] f Hs).
  set (f1 := fst (connector_loop script f)).
  set (t1 := snd (connector_loop script f)).
  pose proof (delay_after_failure e f1 t1) as Hd.
  simpl in *.
  destruct (is_connection_error e); simpl in *.
  - rewrite backoff_sleeps_uninterrupted in *. simpl in *.
    rewrite app_nil_r. split; [ reflexivity | exact Hd ].
  - split; [ lia | exact Hd ].
Qed.

(** C5. Take any rounds [pre] of the loop, then a successful
    connection, then failed rounds [fs] of which [N - 1] are recognized
    connection failures (the others are unexpected errors or idle
    polls), with [stop()] never seen. If one more recognized failure
    follows, the counter becomes [N] and [min(5*N, 30)] seconds are
    slept before the next attempt; if an unexpected error follows
    instead, 5 seconds are slept and the counter is left as it was. The
    same holds from the start of the loop, where the counter is 0. *)
Theorem backoff_after_failures :
  forall (pre fs : list round) (polls : nat) (e : exn),
    forallb uninterrupted pre = true ->
    forallb uninterrupted fs = true ->
    forallb failing fs = true ->
    let N := recognized_failures fs + 1 in
    let after_success := pre ++ [Up polls] ++ fs ++ [Raises e None] in
    let from_start := fs ++ [Raises e None] in
    (is_connection_error e = true ->
     fst (_run_connector after_success) = N
     /\ retry_delay (snd (_run_connector after_success))
        = 2 * Nat.min (5 * N) 30
     /\ fst (_run_connector from_start) = N
     /\ retry_delay (snd (_run_connector from_start))
        = 2 * Nat.min (5 * N) 30)
    /\ (is_connection_error e = false ->
        fst (_run_connector after_success) = recognized_failures fs
        /\ retry_delay (snd (_run_connector after_success)) = 10
        /\ fst (_run_connector from_start) = recognized_failures fs
        /\ retry_delay (snd (_run_connector from_start)) = 10).
Proof.
  intros pre fs polls e Hpre Hfs Hfail N after_success from_start.
  assert (Hscript : forallb uninterrupted (pre ++ [Up polls] ++ fs) = true).
  { rewrite !forallb_app. rewrite Hpre, Hfs. reflexivity. }
  assert (Hcount : fst (connector_loop (pre ++ [Up polls] ++ fs) 0)
                   = recognized_failures fs).
  { rewrite app_assoc.
    rewrite connector_loop_app
      by (rewrite forallb_app, Hpre; reflexivity).
    simpl fst. rewrite success_resets by exact Hpre.
    rewrite failures_accumulate by assumption. reflexivity. }
  assert (Hcount0 : fst (connector_loop fs 0) = recognized_failures fs).
  { rewrite failures_accumulate by assumption. reflexivity. }
  assert (Ea : _run_connector after_success
               = connector_loop ((pre ++ [Up polls] ++ fs) ++ [Raises e None]) 0).
  { unfold _run_connector, after_success. rewrite <- !app_assoc. reflexivity. }
  assert (Eb : _run_connector from_start
               = connector_loop (fs ++ [Raises e None]) 0) by reflexivity.
  rewrite Ea, Eb.
  destruct (then_failure (pre ++ [Up polls] ++ fs) e 0 Hscript) as [A1 A2].
  destruct (then_failure fs e 0 Hfs) as [B1 B2].
  rewrite A1, A2, B1, B2, Hcount, Hcount0.
  split; intro He; rewrite He; unfold N; repeat split; lia.
Qed.

Lemma backoff_after_failures_witness :
  fst (_run_connector ([Up 3; refused; crashed; refused] ++ [refused])) = 3
  /\ retry_delay (snd (_run_connector
                         ([Up 3; refused; crashed; refused] ++ [refused])))
     = 30
  /\ fst (_run_connector ([refused; crashed; refused] ++ [crashed])) = 2
  /\ retry_delay (snd (_run_connector
                         ([refused; crashed; refused] ++ [crashed]))) = 10.
Proof.
  pose proof (backoff_after_failures
                [] [refused; crashed; refused] 3
                (ConnectionError (lit "Connection refused"))
                eq_refl eq_refl eq_refl) as [Hrec _].
  pose proof (backoff_after_failures
                [] [refused; crashed; refused] 3
                (OtherError "ValueError" (lit "bad url"))
                eq_refl eq_refl eq_refl) as [_ Hunx].
  destruct (Hrec eq_refl) as [H1 [H2 _]].
  destruct (Hunx eq_refl) as [_ [_ [H3 H4]]].
  exact (conj H1 (conj H2 (conj H3 H4))).
Defined.

End ConnectorFacts.

(* ================================================================== *)
(** * Properties of the chat-provider connector *)
(* ================================================================== *)

Module TwitchClientFacts.
Import TwitchClient Samples.

Lemma str_eqb_eq : forall a b : str, PyStr.eqb a b = true <-> a = b.
Proof.
  induction a as [ | x a IH ]; destruct b as [ | y b ]; simpl;
    try (split; [ discriminate | discriminate ]).
  - split; reflexivity.
  - rewrite andb_true_iff, N.eqb_eq, IH.
    split; [ intros [-> ->]; reflexivity | intro H; inversion H; auto ].
Qed.

(** C7, as the code has it. Without a stored credential pair [start()]
    returns a thread to its caller in the normal way, with
    [_is_running] set; the [RuntimeError] of [_run] ends the background
    thread only. *)
Theorem start_without_credentials_returns :
  forall setup faults st,
    _auth_tokens st = None ->
    start setup faults st
    = (Returned
         {| name := "TwitchClient";
            target_result :=
              Raised (RuntimeError
                        (lit "authenticate() must be awaited before start()")) |},
       set_event_loop (Some tt) (set_running true st))
    /\ _is_running (snd (start setup faults st)) = true.
Proof.
  intros setup faults st Hnone.
  unfold start, _thread_target, _run. simpl.
  rewrite Hnone. split; reflexivity.
Qed.

Lemma start_without_credentials_returns_witness :
  start None [] fresh
  = (Returned
       {| name := "TwitchClient";
          target_result :=
            Raised (RuntimeError
                      (lit "authenticate() must be awaited before start()")) |},
     set_event_loop (Some tt) (set_running true fresh))
  /\ _is_running (snd (start None [] fresh)) = true.
Proof.
  apply (start_without_credentials_returns None [] fresh).
  reflexivity.
Defined.

Section SelfFilter.
Variable BOT_NAME : str.
Variable lower : str -> str.

(** C8. A message whose author name equals the bot identity once both
    are lower-cased leaves the process as it was, whatever callback is
    registered: the callback is not run. For any other message the
    registered callback is run, once, on that message. *)
Theorem self_messages_never_reach_callback :
  forall (W : Type) (cb : ChatMessage -> W -> W) (msg : ChatMessage)
         (w : W),
    (lower (user_name msg) = lower BOT_NAME ->
     forall registered,
       _on_message BOT_NAME lower registered msg w = w)
    /\ (lower (user_name msg) <> lower BOT_NAME ->
        _on_message BOT_NAME lower (Some cb) msg w = cb msg w).
Proof.
  intros W cb msg w. unfold _on_message. split.
  - intros Hsame registered.
    apply str_eqb_eq in Hsame. rewrite Hsame. reflexivity.
  - intro Hother.
    destruct (PyStr.eqb (lower (user_name msg)) (lower BOT_NAME)) eqn:E.
    + apply str_eqb_eq in E. contradiction.
    + reflexivity.
Qed.
End SelfFilter.

Lemma self_messages_never_reach_callback_witness :
  _on_message (lit "peepingnami") ascii_lower (Some record_message) own []
  = []
  /\ _on_message (lit "peepingnami") ascii_lower (Some record_message)
       hello []
     = [hello].
Proof.
  split.
  - apply (proj1 (self_messages_never_reach_callback
                    (lit "peepingnami") ascii_lower _ record_message own [])).
    reflexivity.
  - apply (proj2 (self_messages_never_reach_callback
                    (lit "peepingnami") ascii_lower _ record_message
                    hello [])).
    vm_compute. discriminate.
Defined.

Ltac started_tac :=
  unfold started; simpl; repeat split; discriminate.

Lemma step_started :
  forall e st,
    started st ->
    started (step e st)
    /\ handed (step e st) ++ pending (step e st)
       = handed st ++ pending st
         ++ match e with Enqueue _ t => [t] | Drain _ => [] end.
Proof.
  intros e st (Hl & Hq & Hc).
  destruct st as [c l q r a out]. simpl in *.
  destruct c as [ c | ]; [ | contradiction ].
  destruct l as [ l | ]; [ | contradiction ].
  destruct q as [ q | ]; [ | contradiction ].
  destruct e as [ caller t | fault ]; simpl.
  - split; [ started_tac | reflexivity ].
  - destruct r; simpl.
    + destruct q as [ | m q ]; simpl.
      * split; [ started_tac | ].
        unfold handed, pending; simpl. rewrite !app_nil_r. reflexivity.
      * destruct fault as [ e | ]; (split; [ started_tac | ]);
          unfold handed, pending; simpl;
          rewrite map_app, app_nil_r, <- app_assoc; reflexivity.
    + split; [ started_tac | ].
      unfold handed, pending; simpl. rewrite !app_nil_r. reflexivity.
Qed.

Lemma run_app :
  forall a b st, run (a ++ b) st = run b (run a st).
Proof.
  induction a as [ | e a IH ]; intros b st; [ reflexivity | ].
  cbn [app run]. apply IH.
Qed.

Lemma step_keeps_running :
  forall e st, _is_running (step e st) = _is_running st.
Proof.
  intros e [c l q r a out]. destruct e as [ caller t | fault ]; simpl.
  - unfold send_message. simpl. destruct l, q; reflexivity.
  - destruct r; [ | reflexivity ].
    unfold sender_pass, try_except, chat_send. simpl.
    destruct q as [ [ | m q ] | ]; try reflexivity.
    destruct c as [ c | ]; [ | reflexivity ].
    destruct fault; reflexivity.
Qed.

Lemma run_started :
  forall schedule st,
    started st ->
    started (run schedule st)
    /\ _is_running (run schedule st) = _is_running st
    /\ handed (run schedule st) ++ pending (run schedule st)
       = handed st ++ pending st ++ enqueued schedule.
Proof.
  induction schedule as [ | e schedule IH ]; intros st Hst; simpl.
  - rewrite app_nil_r. auto.
  - destruct (step_started e st Hst) as [Hst' Hstep].
    destruct (IH _ Hst') as (I1 & I2 & I3).
    split; [ exact I1 | ]. split.
    + rewrite I2. apply step_keeps_running.
    + rewrite I3, app_assoc, Hstep.
      destruct e; simpl; rewrite <- !app_assoc; reflexivity.
Qed.

(** A pass of a running loop takes the head of the queue and hands it to
    the provider, whatever the provider answers. *)
Lemma drain_hands_head :
  forall fault st m rest,
    started st -> _is_running st = true ->
    pending st = m :: rest ->
    handed (step (Drain fault) st) = handed st ++ [m]
    /\ pending (step (Drain fault) st) = rest.
Proof.
  intros fault st m rest (Hl & Hq & Hc) Hr Hp.
  destruct st as [c l q r a out]. simpl in *. subst r.
  destruct c as [ c | ]; [ | contradiction ].
  destruct q as [ q | ]; [ | contradiction ].
  unfold pending in Hp. simpl in Hp. subst q.
  unfold sender_pass, try_except, chat_send. simpl.
  destruct fault; unfold handed, pending; simpl; rewrite map_app; auto.
Qed.

Lemma drains_empty_queue :
  forall faults st,
    started st -> _is_running st = true ->
    List.length (pending st) <= List.length faults ->
    handed (run (map Drain faults) st) = handed st ++ pending st
    /\ pending (run (map Drain faults) st) = [].
Proof.
  induction faults as [ | f faults IH ]; intros st Hst Hr Hl.
  - destruct (pending st) eqn:P; [ | simpl in Hl; lia ].
    simpl. rewrite P, app_nil_r. auto.
  - cbn [map run].
    destruct (step_started (Drain f) st Hst) as [Hst' _].
    pose proof (step_keeps_running (Drain f) st) as Hr'. rewrite Hr in Hr'.
    destruct (pending st) as [ | m rest ] eqn:P.
    + assert (E : step (Drain f) st = st).
      { destruct st as [c l q r a out]. simpl in *. subst r.
        unfold pending in P. simpl in P.
        destruct Hst as (_ & Hq & _). simpl in Hq.
        destruct q as [ q | ]; [ | contradiction ]. subst q. reflexivity. }
      rewrite E. destruct (IH st Hst Hr) as [I1 I2].
      * rewrite P. simpl. lia.
      * rewrite I1, I2, P. auto.
    + destruct (drain_hands_head f st m rest Hst Hr P) as [D1 D2].
      destruct (IH (step (Drain f) st) Hst' Hr') as [I1 I2].
      * rewrite D2. simpl in Hl. lia.
      * rewrite I1, I2, D1, D2, <- app_assoc. auto.
Qed.

(** C9. On a started client, whatever the interleaving of the callers'
    [send_message] calls with the passes of the sender loop, and
    whichever sends the provider rejects: the texts handed to the
    provider followed by those still queued are the texts handed and
    queued before followed by the enqueued texts in the order of their
    enqueuing, so none is skipped, moved or handed over twice. While the
    client runs the loop does deliver: a further pass hands the head of
    the queue to the provider and nothing else, and once the loop has
    made as many further passes as there are texts queued, the provider
    has received every text, in the order of enqueuing, and the queue is
    empty. *)
Theorem sender_loop_is_fifo :
  forall (schedule : list event) (st : state),
    started st ->
    handed (run schedule st) ++ pending (run schedule st)
    = handed st ++ pending st ++ enqueued schedule
    /\ (_is_running st = true ->
        (forall m rest fault,
            pending (run schedule st) = m :: rest ->
            handed (run (schedule ++ [Drain fault]) st)
            = handed (run schedule st) ++ [m]
            /\ pending (run (schedule ++ [Drain fault]) st) = rest)
        /\ (forall faults,
               List.length (pending (run schedule st)) <= List.length faults ->
               handed (run (schedule ++ map Drain faults) st)
               = handed st ++ pending st ++ enqueued schedule
               /\ pending (run (schedule ++ map Drain faults) st) = [])).
Proof.
  intros schedule st Hst.
  destruct (run_started schedule st Hst) as (S1 & S2 & S3).
  split; [ exact S3 | ].
  intro Hr. rewrite Hr in S2. split.
  - intros m rest fault P. rewrite run_app. cbn [run].
    exact (drain_hands_head fault _ m rest S1 S2 P).
  - intros faults L. rewrite run_app.
    destruct (drains_empty_queue faults _ S1 S2 L) as [D1 D2].
    rewrite D1, D2, S3. auto.
Qed.

Lemma sender_loop_is_fifo_witness :
  (handed (run schedule0 ready) ++ pending (run schedule0 ready)
   = [lit "a"; lit "b"; lit "c"; lit "d"])
  /\ (handed (run (schedule0 ++ [Drain None]) ready)
      = handed (run schedule0 ready) ++ [lit "d"]
      /\ pending (run (schedule0 ++ [Drain None]) ready) = [])
  /\ (handed (run (schedule0 ++ map Drain [None; None]) ready)
      = [lit "a"; lit "b"; lit "c"; lit "d"]
      /\ pending (run (schedule0 ++ map Drain [None; None]) ready) = []).
Proof.
  assert (S : started ready)
    by (unfold started, ready; simpl; repeat split; discriminate).
  destruct (sender_loop_is_fifo schedule0 ready S) as [C D].
  destruct (D eq_refl) as [H A].
  split; [ exact C | ]. split.
  - apply (H (lit "d") [] None). reflexivity.
  - apply (A [None; None]). simpl. lia.
Defined.

End TwitchClientFacts.

(* ================================================================== *)
(** * Properties of the orchestrator's handlers *)
(* ================================================================== *)

Module MainFacts.
Import Main Samples.

(** C1 fails as stated: with the connector disconnected the handler
    writes no event at all. *)
Lemma disconnected_emits_nothing :
  ~ emitted_once_each_in_order hello offline.
Proof.
  unfold emitted_once_each_in_order. vm_compute. discriminate.
Qed.

(** C1, amended. For every chat message that reaches the handler, in
    every state of the connector and whatever the transport does, the
    handler returns normally and what it does is one call of
    [emit_twitch_message] followed by one call of [emit_scored_event].
    While the connector is disconnected nothing is written, the transport
    is not touched, and the two events are reported as dropped, in that
    order. While it is connected and the transport accepts the two
    writes, exactly one [twitch_message] with the message's username and
    text and then exactly one [event] are written, and nothing is
    printed. *)
Theorem handler_emits_raw_then_scored :
  forall (msg : TwitchClient.ChatMessage) (st : DirectorBridge.state),
    fst (_handle_twitch_message msg st) = Returned tt
    /\ snd (_handle_twitch_message msg st)
       = snd (DirectorBridge.emit_scored_event
                (TwitchClient.user_name msg) (TwitchClient.text msg)
                (Re.search _MENTION_RE (TwitchClient.text msg))
                (snd (DirectorBridge.emit_twitch_message
                        (TwitchClient.user_name msg) (TwitchClient.text msg)
                        st)))
    /\ (DirectorBridge.connected st = false ->
        DirectorBridge.sent (snd (_handle_twitch_message msg st))
        = DirectorBridge.sent st
        /\ DirectorBridge.faults (snd (_handle_twitch_message msg st))
           = DirectorBridge.faults st
        /\ DirectorBridge.stdout (snd (_handle_twitch_message msg st))
           = DirectorBridge.stdout st
             ++ [DirectorBridge.DropEvent "twitch_message";
                 DirectorBridge.DropEvent "event"])
    /\ (DirectorBridge.connected st = true ->
        hd None (DirectorBridge.faults st) = None ->
        hd None (tl (DirectorBridge.faults st)) = None ->
        DirectorBridge.sent (snd (_handle_twitch_message msg st))
        = DirectorBridge.sent st ++ events_of msg
        /\ DirectorBridge.stdout (snd (_handle_twitch_message msg st))
           = DirectorBridge.stdout st).
Proof.
  intros msg st.
  assert (R : forall event payload s,
             fst (DirectorBridge._safe_emit event payload s) = Returned tt).
  { intros event payload s.
    unfold DirectorBridge._safe_emit, try_except, DirectorBridge.sio_emit.
    destruct (DirectorBridge.connected s); [ | reflexivity ].
    destruct (DirectorBridge.faults s) as [ | [ e | ] rest ]; reflexivity. }
  assert (E : _handle_twitch_message msg st
              = DirectorBridge.emit_scored_event
                  (TwitchClient.user_name msg) (TwitchClient.text msg)
                  (Re.search _MENTION_RE (TwitchClient.text msg))
                  (snd (DirectorBridge.emit_twitch_message
                          (TwitchClient.user_name msg)
                          (TwitchClient.text msg) st))).
  { unfold _handle_twitch_message, DirectorBridge.emit_twitch_message.
    pose proof (R "twitch_message"%string
                  (DirectorBridge.twitch_message_payload
                     (TwitchClient.user_name msg) (TwitchClient.text msg))
                  st) as R1.
    destruct (DirectorBridge._safe_emit "twitch_message"
                (DirectorBridge.twitch_message_payload
                   (TwitchClient.user_name msg) (TwitchClient.text msg)) st)
      as [ r st1 ].
    simpl in R1. subst r. reflexivity. }
  split; [ rewrite E; apply R | ].
  split; [ rewrite E; reflexivity | ].
  clear E R. destruct st as [up written fs out].
  unfold _handle_twitch_message, DirectorBridge.emit_twitch_message,
    DirectorBridge.emit_scored_event, DirectorBridge._safe_emit,
    try_except, DirectorBridge.sio_emit, events_of.
  split.
  - simpl. intros ->. simpl.
    rewrite <- app_assoc. repeat split.
  - simpl. intros -> H1 H2. simpl.
    destruct fs as [ | f1 fs ]; simpl in *.
    + rewrite <- app_assoc. split; reflexivity.
    + subst f1. simpl.
      destruct fs as [ | f2 fs ]; simpl in *.
      * rewrite <- app_assoc. split; reflexivity.
      * subst f2. simpl. rewrite <- app_assoc. split; reflexivity.
Qed.

Lemma handler_emits_raw_then_scored_witness :
  (DirectorBridge.sent (snd (_handle_twitch_message hello online))
   = DirectorBridge.sent online ++ events_of hello
   /\ DirectorBridge.stdout (snd (_handle_twitch_message hello online))
      = DirectorBridge.stdout online)
  /\ (DirectorBridge.sent (snd (_handle_twitch_message hello offline))
      = DirectorBridge.sent offline
      /\ DirectorBridge.faults (snd (_handle_twitch_message hello offline))
         = DirectorBridge.faults offline
      /\ DirectorBridge.stdout (snd (_handle_twitch_message hello offline))
         = DirectorBridge.stdout offline
           ++ [DirectorBridge.DropEvent "twitch_message";
               DirectorBridge.DropEvent "event"])
  /\ fst (_handle_twitch_message hello offline) = Returned tt.
Proof.
  destruct (handler_emits_raw_then_scored hello online) as (_ & _ & _ & Up).
  destruct (handler_emits_raw_then_scored hello offline)
    as (Ret & _ & Down & _).
  exact (conj (Up eq_refl eq_refl eq_refl) (conj (Down eq_refl) Ret)).
Defined.

(** C2 fails as stated: a censored reply whose text is empty is dropped
    before the censorship flag is looked at, and nothing is sent. *)
Lemma censored_empty_reply_sends_nothing :
  ~ forwards_placeholder censored_empty_reply world0.
Proof.
  unfold forwards_placeholder. vm_compute. discriminate.
Qed.

(** C2, amended. For every payload whose [is_censored] is true and whose
    [reply] is not empty, whatever [reply] holds, the handler passes the
    fixed placeholder to the chat provider's send operation and returns;
    the text cleanup is not applied (the payload's [reply] does not
    occur in the result, and a [reply] that the cleanup would reject is
    accepted). *)
Theorem censored_reply_sends_placeholder :
  forall (data : dict) (w : world),
    truthy (get data "is_censored" VNone) = true ->
    truthy (get data "reply" (VStr (lit ""))) = true ->
    _handle_bot_reply data w
    = (Returned tt,
       {| twitch := TwitchClient.send_message (lit "*censored*") (twitch w);
          director := director w;
          stdout := stdout w ++ [Forwarded (lit "*censored*")] |})
    /\ forwards_placeholder data w.
Proof.
  intros data w Hc Hr.
  assert (E : _handle_bot_reply data w
              = (Returned tt,
                 {| twitch := TwitchClient.send_message (lit "*censored*")
                                (twitch w);
                    director := director w;
                    stdout := stdout w ++ [Forwarded (lit "*censored*")] |})).
  { unfold _handle_bot_reply. rewrite Hr, Hc. reflexivity. }
  split; [ exact E | ].
  unfold forwards_placeholder. rewrite E. reflexivity.
Qed.

Lemma censored_reply_sends_placeholder_witness :
  _handle_bot_reply censored_reply world0
  = (Returned tt,
     {| twitch := TwitchClient.send_message (lit "*censored*")
                    (twitch world0);
        director := director world0;
        stdout := stdout world0 ++ [Forwarded (lit "*censored*")] |})
  /\ forwards_placeholder censored_reply world0.
Proof.
  apply (censored_reply_sends_placeholder censored_reply world0);
    reflexivity.
Defined.

End MainFacts.

(* ================================================================== *)
(** * The matcher on the patterns of the service *)
(* ================================================================== *)

Module ReFacts.
Import Re.

Lemma take_drop_while :
  forall p s, take_while p s ++ drop_while p s = s.
Proof.
  induction s as [ | c s IH ]; simpl; [ reflexivity | ].
  destruct (p c); simpl; [ rewrite IH | ]; reflexivity.
Qed.

(** The longest run wins when the rest of the pattern accepts it. *)
Lemma star_cls_greedy :
  forall (A : Type) p s (k : str -> option A) r,
    k (drop_while p s) = Some r -> star_cls p s k = Some r.
Proof.
  induction s as [ | c s IH ]; intros k r H; simpl in *; [ exact H | ].
  destruct (p c); [ | exact H ].
  rewrite (IH k r H). reflexivity.
Qed.

(** Backtracking into the run is useless when the rest of the pattern
    cannot start with a character of the class. *)
Lemma star_cls_no_backtrack :
  forall (A : Type) p s (k : str -> option A),
    (forall c t, p c = true -> k (c :: t) = None) ->
    star_cls p s k = k (drop_while p s).
Proof.
  induction s as [ | c s IH ]; intros k Hk; simpl; [ reflexivity | ].
  destruct (p c) eqn:Hc; [ | reflexivity ].
  rewrite (IH k Hk).
  destruct (k (drop_while p s)); [ reflexivity | ].
  apply Hk. exact Hc.
Qed.

Section Sub.
Variable r : regex.
Variable repl : list str -> str.

Lemma sub_from_skip :
  forall m t, sub_from r repl (List.length m) (m ++ t) = sub r repl t.
Proof.
  induction m as [ | c m IH ]; intro t; simpl.
  - destruct t; reflexivity.
  - apply IH.
Qed.

Lemma sub_cons :
  forall c s,
    sub r repl (c :: s)
    = match match_at r (c :: s) with
      | Some (t, g) =>
          match List.length (c :: s) - List.length t with
          | S n => repl g ++ sub_from r repl n s
          | O => c :: sub r repl s
          end
      | None => c :: sub r repl s
      end.
Proof. reflexivity. Qed.

Lemma sub_no_match :
  forall c s,
    match_at r (c :: s) = None ->
    sub r repl (c :: s) = c :: sub r repl s.
Proof.
  intros c s H. rewrite sub_cons, H. reflexivity.
Qed.

Lemma sub_match :
  forall c m t g,
    match_at r (c :: m ++ t) = Some (t, g) ->
    sub r repl (c :: m ++ t) = repl g ++ sub r repl t.
Proof.
  intros c m t g H. rewrite sub_cons, H.
  assert (E : List.length (c :: m ++ t) - List.length t
              = S (List.length m))
    by (cbn [List.length]; rewrite length_app; lia).
  rewrite E, sub_from_skip. reflexivity.
Qed.
End Sub.

Lemma punct_not_space :
  forall c, is_punct c = true -> is_space c = false.
Proof.
  intros c H. unfold is_punct in H.
  repeat (apply orb_prop in H; destruct H as [H | H]);
    apply N.eqb_eq in H; subst c; reflexivity.
Qed.


Lemma letter_not_star :
  forall c, is_letter c = true -> N.eqb star c = false.
Proof.
  intros c H. destruct (N.eqb star c) eqn:E; [ | reflexivity ].
  apply N.eqb_eq in E. subst c. discriminate.
Qed.

Lemma space_is_space : is_space space = true.
Proof. reflexivity. Qed.

End ReFacts.

(* ================================================================== *)
(** * Properties of the reply text cleanup *)
(* ================================================================== *)

Module CleanupFacts.
Import Re Main ReFacts.

(** ** The three patterns at the head of a text *)

Lemma match_ws :
  forall c s,
    match_at ws_re (c :: s)
    = if is_space c then Some (drop_while is_space s, []) else None.
Proof.
  intros c s. unfold match_at, ws_re. simpl.
  destruct (is_space c); [ | reflexivity ].
  apply star_cls_greedy. reflexivity.
Qed.

Lemma match_ws_punct :
  forall c s,
    match_at ws_punct_re (c :: s)
    = if is_space c then
        match drop_while is_space s with
        | d :: t => if is_punct d then Some (t, [[d]]) else None
        | [] => None
        end
      else None.
Proof.
  intros c s. unfold match_at, ws_punct_re. simpl.
  destruct (is_space c); [ | reflexivity ].
  rewrite star_cls_no_backtrack.
  - destruct (drop_while is_space s) as [ | d t ]; [ reflexivity | ].
    destruct (is_punct d); [ | reflexivity ].
    replace (List.length (d :: t) - List.length t) with 1
      by (cbn [List.length]; lia).
    reflexivity.
  - intros x t Hx. destruct (is_punct x) eqn:Hp; [ | reflexivity ].
    apply punct_not_space in Hp. congruence.
Qed.

Lemma match_fx :
  forall c s,
    match_at fx_re (c :: s)
    = if N.eqb star c then
        match s with
        | l :: s1 =>
            if is_letter l then
              match drop_while is_letter s1 with
              | x :: t => if N.eqb star x then Some (t, []) else None
              | [] => None
              end
            else None
        | [] => None
        end
      else None.
Proof.
  intros c s. unfold match_at, fx_re. cbn [rmatch].
  destruct (N.eqb star c); [ | reflexivity ].
  destruct s as [ | l s1 ]; [ reflexivity | ].
  destruct (is_letter l); [ | reflexivity ].
  rewrite star_cls_no_backtrack; [ reflexivity | ].
  intros x t Hx. rewrite (letter_not_star x Hx). reflexivity.
Qed.

(** ** Induction on the length of a text *)

Lemma str_length_ind :
  forall P : str -> Prop,
    (forall s, (forall t, List.length t < List.length s -> P t) -> P s) ->
    forall s, P s.
Proof.
  intros P H s.
  assert (G : forall n t, List.length t < n -> P t).
  { induction n as [ | n IH ]; intros t Ht; [ lia | ].
    apply H. intros u Hu. apply IH. lia. }
  apply (G (S (List.length s))). lia.
Qed.

Lemma drop_while_length :
  forall p s, List.length (drop_while p s) <= List.length s.
Proof.
  induction s as [ | c s IH ]; simpl; [ lia | ].
  destruct (p c); simpl; lia.
Qed.

Lemma drop_while_head :
  forall s, head_space (drop_while is_space s) = false.
Proof.
  induction s as [ | c s IH ]; simpl; [ reflexivity | ].
  destruct (is_space c) eqn:E; [ exact IH | simpl; exact E ].
Qed.

Lemma drop_while_id :
  forall s, head_space s = false -> drop_while is_space s = s.
Proof.
  intros [ | c s ] H; simpl in *; [ reflexivity | ].
  rewrite H. reflexivity.
Qed.

(** ** The passes, equation by equation *)

Lemma collapse_other :
  forall c s,
    is_space c = false ->
    collapse_whitespace (c :: s) = c :: collapse_whitespace s.
Proof.
  intros c s H. unfold collapse_whitespace.
  apply sub_no_match. rewrite match_ws, H. reflexivity.
Qed.

Lemma collapse_space :
  forall c s,
    is_space c = true ->
    collapse_whitespace (c :: s)
    = space :: collapse_whitespace (drop_while is_space s).
Proof.
  intros c s H. unfold collapse_whitespace.
  pose proof (sub_match ws_re (fun _ => lit " ") c
                (take_while is_space s) (drop_while is_space s) []) as M.
  rewrite take_drop_while in M. apply M.
  rewrite match_ws, H. reflexivity.
Qed.

Lemma attach_other :
  forall c s,
    is_space c = false ->
    attach_punctuation (c :: s) = c :: attach_punctuation s.
Proof.
  intros c s H. unfold attach_punctuation.
  apply sub_no_match. rewrite match_ws_punct, H. reflexivity.
Qed.

Lemma attach_space_punct :
  forall c s d t,
    is_space c = true ->
    drop_while is_space s = d :: t ->
    is_punct d = true ->
    attach_punctuation (c :: s) = d :: attach_punctuation t.
Proof.
  intros c s d t Hc Hs Hd. unfold attach_punctuation.
  pose proof (sub_match ws_punct_re group1 c
                (take_while is_space s ++ [d]) t [[d]]) as M.
  rewrite <- app_assoc in M. simpl app in M.
  rewrite <- Hs, take_drop_while in M. apply M.
  rewrite match_ws_punct, Hc, Hs, Hd. reflexivity.
Qed.

Lemma attach_space_other :
  forall c s,
    is_space c = true ->
    head_punct (drop_while is_space s) = false ->
    attach_punctuation (c :: s) = c :: attach_punctuation s.
Proof.
  intros c s Hc Hs. unfold attach_punctuation.
  apply sub_no_match. rewrite match_ws_punct, Hc.
  destruct (drop_while is_space s) as [ | d t ]; [ reflexivity | ].
  simpl in Hs. rewrite Hs. reflexivity.
Qed.

(** ** Shape of the text after each pass *)

Lemma collapsed_tail :
  forall c s, collapsed (c :: s) = true -> collapsed s = true.
Proof.
  intros c s H. simpl in H. apply andb_prop in H. tauto.
Qed.

Lemma collapsed_space :
  forall c s,
    collapsed (c :: s) = true -> is_space c = true ->
    c = space /\ head_space s = false.
Proof.
  intros c s H Hc. simpl in H. rewrite Hc in H.
  apply andb_prop in H. destruct H as [H _].
  apply andb_prop in H. destruct H as [H1 H2].
  apply N.eqb_eq in H1. apply negb_true_iff in H2. auto.
Qed.

Lemma collapse_head :
  forall s, head_space s = false ->
            head_space (collapse_whitespace s) = false.
Proof.
  intros [ | c s ] H; [ reflexivity | ].
  simpl in H. rewrite collapse_other by exact H. exact H.
Qed.

(** After the second pass whitespace is made of single spaces. *)
Lemma collapse_collapsed :
  forall s, collapsed (collapse_whitespace s) = true.
Proof.
  induction s as [ s IH ] using str_length_ind.
  destruct s as [ | c s ]; [ reflexivity | ].
  destruct (is_space c) eqn:Hc.
  - rewrite collapse_space by exact Hc.
    cbn [collapsed]. rewrite space_is_space, N.eqb_refl.
    rewrite collapse_head by apply drop_while_head.
    rewrite IH; [ reflexivity | ].
    pose proof (drop_while_length is_space s). simpl. lia.
  - rewrite collapse_other by exact Hc.
    cbn [collapsed]. rewrite Hc. rewrite IH; [ reflexivity | simpl; lia ].
Qed.

Lemma collapsed_drop_while :
  forall s, collapsed s = true -> collapsed (drop_while is_space s) = true.
Proof.
  induction s as [ | c s IH ]; intro H; [ reflexivity | ].
  simpl. destruct (is_space c); [ | exact H ].
  apply IH. exact (collapsed_tail _ _ H).
Qed.

Lemma collapsed_app_l :
  forall a b, collapsed (a ++ b) = true -> collapsed a = true.
Proof.
  induction a as [ | c a IH ]; intros b H; [ reflexivity | ].
  simpl in H. apply andb_prop in H. destruct H as [H1 H2].
  cbn [collapsed]. rewrite (IH b H2), andb_true_r.
  destruct (is_space c); [ | reflexivity ].
  apply andb_prop in H1. destruct H1 as [H1 H3].
  rewrite H1. simpl.
  destruct a as [ | d a ]; [ reflexivity | exact H3 ].
Qed.

Lemma ends_clear_snoc :
  forall a c, ends_clear (a ++ [c]) = negb (is_space c).
Proof.
  induction a as [ | d a IH ]; intro c; [ reflexivity | ].
  cbn [app ends_clear]. rewrite IH.
  destruct a; reflexivity.
Qed.

Lemma ends_clear_rev :
  forall s, ends_clear (rev s) = negb (head_space s).
Proof.
  intros [ | c s ]; [ reflexivity | ].
  simpl rev. apply ends_clear_snoc.
Qed.

Lemma ends_clear_tail :
  forall c s, ends_clear (c :: s) = true -> ends_clear s = true.
Proof. intros c [ | d s ] H; [ reflexivity | exact H ]. Qed.

Lemma ends_clear_cons :
  forall c s,
    is_space c = false -> ends_clear s = true -> ends_clear (c :: s) = true.
Proof.
  intros c [ | d s ] Hc H; [ simpl; rewrite Hc; reflexivity | exact H ].
Qed.

(** [strip] cuts a text down to what lies between its first and last
    characters that are not whitespace. *)
Lemma strip_shape :
  forall s,
    collapsed s = true ->
    collapsed (strip s) = true
    /\ head_space (strip s) = false
    /\ ends_clear (strip s) = true.
Proof.
  intros s H. unfold strip.
  set (x := drop_while is_space s).
  assert (Hx : collapsed x = true) by (apply collapsed_drop_while; exact H).
  assert (Hh : head_space x = false) by apply drop_while_head.
  set (y := drop_while is_space (rev x)).
  assert (Hy : head_space y = false) by apply drop_while_head.
  assert (E : x = rev y ++ rev (take_while is_space (rev x))).
  { rewrite <- rev_app_distr. unfold y.
    rewrite take_drop_while, rev_involutive. reflexivity. }
  repeat split.
  - rewrite E in Hx. exact (collapsed_app_l _ _ Hx).
  - destruct (rev y) as [ | c r ] eqn:Er; [ reflexivity | ].
    rewrite E in Hh. exact Hh.
  - rewrite ends_clear_rev, Hy. reflexivity.
Qed.

Lemma strip_id :
  forall s, head_space s = false -> ends_clear s = true -> strip s = s.
Proof.
  intros s Hh He. unfold strip.
  rewrite (drop_while_id s Hh).
  rewrite drop_while_id; [ apply rev_involutive | ].
  rewrite <- (rev_involutive s) in He.
  rewrite ends_clear_rev in He.
  apply negb_true_iff in He. exact He.
Qed.

(** The third pass on text whose whitespace is single spaces: the
    spaces before punctuation go, the shape stays. *)
Lemma attach_shape :
  forall s,
    collapsed s = true -> ends_clear s = true ->
    collapsed (attach_punctuation s) = true
    /\ ends_clear (attach_punctuation s) = true
    /\ no_space_before_punct (attach_punctuation s) = true
    /\ (head_space s = false ->
        head_space (attach_punctuation s) = false).
Proof.
  induction s as [ s IH ] using str_length_ind. intros Hc He.
  destruct s as [ | c s ]; [ repeat split | ].
  pose proof (collapsed_tail _ _ Hc) as Hcs.
  pose proof (ends_clear_tail _ _ He) as Hes.
  destruct (is_space c) eqn:Hsp.
  - destruct (collapsed_space _ _ Hc Hsp) as [-> Hhs].
    destruct s as [ | d s ]; [ discriminate He | ].
    simpl in Hhs.
    pose proof (collapsed_tail _ _ Hcs) as Hcs'.
    pose proof (ends_clear_tail _ _ Hes) as Hes'.
    destruct (IH s ltac:(simpl; lia) Hcs' Hes') as (I1 & I2 & I3 & _).
    destruct (is_punct d) eqn:Hp.
    + rewrite (attach_space_punct space (d :: s) d s Hsp)
        by (simpl; rewrite ?Hhs; auto).
      cbn [collapsed no_space_before_punct head_space].
      rewrite Hhs, I1, I3. simpl.
      repeat split; try discriminate.
      apply ends_clear_cons; assumption.
    + rewrite attach_space_other
        by (simpl; rewrite ?Hhs; simpl; auto).
      rewrite attach_other by exact Hhs.
      cbn [collapsed no_space_before_punct head_space head_punct].
      rewrite Hsp, Hhs, Hp, I1, I3. simpl.
      repeat split; try discriminate.
      apply ends_clear_cons; assumption.
  - destruct (IH s ltac:(simpl; lia) Hcs Hes) as (I1 & I2 & I3 & _).
    rewrite attach_other by exact Hsp.
    cbn [collapsed no_space_before_punct head_space].
    rewrite Hsp, I1, I3. simpl.
    repeat split; try assumption.
    apply ends_clear_cons; assumption.
Qed.

(** Text whose whitespace is single spaces is left alone by the second
    pass ... *)
Lemma collapse_id :
  forall s, collapsed s = true -> collapse_whitespace s = s.
Proof.
  induction s as [ | c s IH ]; intro H; [ reflexivity | ].
  pose proof (collapsed_tail _ _ H) as Hs.
  destruct (is_space c) eqn:Hc.
  - destruct (collapsed_space _ _ H Hc) as [-> Hh].
    rewrite collapse_space by exact Hc.
    rewrite (drop_while_id s Hh), (IH Hs). reflexivity.
  - rewrite collapse_other by exact Hc. rewrite (IH Hs). reflexivity.
Qed.

(** ... and by the third when no space stands before punctuation. *)
Lemma attach_id :
  forall s,
    collapsed s = true -> no_space_before_punct s = true ->
    attach_punctuation s = s.
Proof.
  induction s as [ | c s IH ]; intros Hc Hn; [ reflexivity | ].
  pose proof (collapsed_tail _ _ Hc) as Hcs.
  simpl in Hn. apply andb_prop in Hn. destruct Hn as [Hn Hns].
  destruct (is_space c) eqn:Hsp.
  - destruct (collapsed_space _ _ Hc Hsp) as [-> Hh].
    simpl in Hn. apply negb_true_iff in Hn.
    rewrite attach_space_other; [ rewrite (IH Hcs Hns); reflexivity
                                | exact Hsp | ].
    rewrite (drop_while_id s Hh). exact Hn.
  - rewrite attach_other by exact Hsp.
    rewrite (IH Hcs Hns). reflexivity.
Qed.

Lemma cleanup_passes :
  forall s, _strip_sound_effects s = normalise (strip_annotations s).
Proof. reflexivity. Qed.

Lemma normalise_shape :
  forall s,
    collapsed (normalise s) = true
    /\ head_space (normalise s) = false
    /\ ends_clear (normalise s) = true
    /\ no_space_before_punct (normalise s) = true.
Proof.
  intro s. unfold normalise.
  destruct (strip_shape _ (collapse_collapsed s)) as (S1 & S2 & S3).
  destruct (attach_shape _ S1 S3) as (A1 & A2 & A3 & A4).
  auto.
Qed.

Lemma normalise_id :
  forall s,
    collapsed s = true -> head_space s = false -> ends_clear s = true ->
    no_space_before_punct s = true ->
    normalise s = s.
Proof.
  intros s H1 H2 H3 H4. unfold normalise.
  rewrite (collapse_id s H1), (strip_id s H2 H3).
  apply attach_id; assumption.
Qed.

Lemma normalise_idempotent :
  forall s, normalise (normalise s) = normalise s.
Proof.
  intro s. destruct (normalise_shape s) as (H1 & H2 & H3 & H4).
  apply normalise_id; assumption.
Qed.

(** A pass of [re.sub] changes nothing where the pattern is not found. *)
Lemma sub_not_found :
  forall r repl s, search r s = false -> sub r repl s = s.
Proof.
  induction s as [ | c s IH ]; intro H; [ reflexivity | ].
  simpl in H.
  destruct (match_at r (c :: s)) eqn:M; [ discriminate | ].
  rewrite sub_no_match by exact M. rewrite (IH H). reflexivity.
Qed.

(** ** What the passes keep *)

Lemma visible_space :
  forall c s, is_space c = true ->
              filter visible (c :: s) = filter visible s.
Proof. intros c s H. simpl. unfold visible at 1. rewrite H. reflexivity. Qed.

Lemma visible_other :
  forall c s, is_space c = false ->
              filter visible (c :: s) = c :: filter visible s.
Proof. intros c s H. simpl. unfold visible at 1. rewrite H. reflexivity. Qed.

Lemma visible_drop_while :
  forall s, filter visible (drop_while is_space s) = filter visible s.
Proof.
  induction s as [ | c s IH ]; [ reflexivity | ].
  cbn [drop_while]. destruct (is_space c) eqn:E.
  - rewrite visible_space by exact E. exact IH.
  - reflexivity.
Qed.

Lemma collapse_content :
  forall s, filter visible (collapse_whitespace s) = filter visible s.
Proof.
  induction s as [ s IH ] using str_length_ind.
  destruct s as [ | c s ]; [ reflexivity | ].
  destruct (is_space c) eqn:Hc.
  - rewrite collapse_space by exact Hc.
    rewrite !visible_space by (exact Hc || apply space_is_space).
    rewrite IH by (pose proof (drop_while_length is_space s); simpl; lia).
    apply visible_drop_while.
  - rewrite collapse_other by exact Hc.
    rewrite !visible_other by exact Hc.
    rewrite IH by (simpl; lia). reflexivity.
Qed.

Lemma visible_rev :
  forall s, filter visible (rev s) = rev (filter visible s).
Proof.
  induction s as [ | c s IH ]; [ reflexivity | ].
  simpl. rewrite filter_app, IH. simpl.
  destruct (visible c); simpl; [ reflexivity | apply app_nil_r ].
Qed.

Lemma strip_content :
  forall s, filter visible (strip s) = filter visible s.
Proof.
  intro s. unfold strip.
  rewrite visible_rev, visible_drop_while, visible_rev, rev_involutive.
  apply visible_drop_while.
Qed.

Lemma attach_content :
  forall s, filter visible (attach_punctuation s) = filter visible s.
Proof.
  induction s as [ s IH ] using str_length_ind.
  destruct s as [ | c s ]; [ reflexivity | ].
  destruct (is_space c) eqn:Hc.
  - destruct (drop_while is_space s) as [ | d t ] eqn:Hd.
    + rewrite attach_space_other by (rewrite ?Hd; auto).
      rewrite !visible_space by exact Hc. apply IH. simpl; lia.
    + destruct (is_punct d) eqn:Hp.
      * rewrite (attach_space_punct c s d t Hc Hd Hp).
        rewrite (visible_space c s Hc).
        rewrite <- (visible_drop_while s), Hd.
        rewrite !visible_other by (apply punct_not_space; exact Hp).
        rewrite IH; [ reflexivity | ].
        pose proof (drop_while_length is_space s) as L.
        rewrite Hd in L. simpl in *. lia.
      * rewrite attach_space_other by (rewrite ?Hd; auto).
        rewrite !visible_space by exact Hc. apply IH. simpl; lia.
  - rewrite attach_other by exact Hc.
    rewrite !visible_other by exact Hc.
    rewrite IH by (simpl; lia). reflexivity.
Qed.

Lemma normalise_content :
  forall s, filter visible (normalise s) = filter visible s.
Proof.
  intro s. unfold normalise.
  rewrite attach_content, strip_content. apply collapse_content.
Qed.

(** ** The first pass *)

Lemma strip_annotations_other :
  forall c s,
    c <> star ->
    strip_annotations (c :: s) = c :: strip_annotations s.
Proof.
  intros c s H. unfold strip_annotations.
  apply sub_no_match. rewrite match_fx.
  destruct (N.eqb star c) eqn:E; [ | reflexivity ].
  apply N.eqb_eq in E. congruence.
Qed.



Lemma strip_annotations_prefix :
  forall a b,
    ~ In star a -> strip_annotations (a ++ b) = a ++ strip_annotations b.
Proof.
  induction a as [ | c a IH ]; intros b H; [ reflexivity | ].
  simpl app. rewrite strip_annotations_other.
  - rewrite IH; [ reflexivity | ]. intro K. apply H. right. exact K.
  - intro E. apply H. left. exact E.
Qed.



(** ** Lengths: no pass makes a text longer *)

Lemma collapse_length :
  forall s, List.length (collapse_whitespace s) <= List.length s.
Proof.
  induction s as [ s IH ] using str_length_ind.
  destruct s as [ | c s ]; [ simpl; lia | ].
  destruct (is_space c) eqn:Hc.
  - rewrite collapse_space by exact Hc.
    pose proof (drop_while_length is_space s) as L.
    specialize (IH (drop_while is_space s)). simpl in *. lia.
  - rewrite collapse_other by exact Hc.
    specialize (IH s). simpl in *. lia.
Qed.

Lemma strip_length :
  forall s, List.length (strip s) <= List.length s.
Proof.
  intro s. unfold strip. rewrite length_rev.
  pose proof (drop_while_length is_space (rev (drop_while is_space s))) as L.
  rewrite length_rev in L.
  pose proof (drop_while_length is_space s). lia.
Qed.

Lemma attach_length :
  forall s, List.length (attach_punctuation s) <= List.length s.
Proof.
  induction s as [ s IH ] using str_length_ind.
  destruct s as [ | c s ]; [ simpl; lia | ].
  destruct (is_space c) eqn:Hc.
  - destruct (drop_while is_space s) as [ | d t ] eqn:Hd.
    + rewrite attach_space_other by (rewrite ?Hd; auto).
      specialize (IH s). simpl in *. lia.
    + pose proof (drop_while_length is_space s) as L. rewrite Hd in L.
      destruct (is_punct d) eqn:Hp.
      * rewrite (attach_space_punct c s d t Hc Hd Hp).
        specialize (IH t). simpl in *. lia.
      * rewrite attach_space_other by (rewrite ?Hd; auto).
        specialize (IH s). simpl in *. lia.
  - rewrite attach_other by exact Hc.
    specialize (IH s). simpl in *. lia.
Qed.

Lemma normalise_length :
  forall s, List.length (normalise s) <= List.length s.
Proof.
  intro s. unfold normalise.
  pose proof (attach_length (strip (collapse_whitespace s))).
  pose proof (strip_length (collapse_whitespace s)).
  pose proof (collapse_length s). lia.
Qed.

(** A match of the annotation pattern never ends where it starts. *)
Lemma match_fx_consumes :
  forall s t g,
    match_at fx_re s = Some (t, g) -> List.length t < List.length s.
Proof.
  intros [ | c s ] t g H; [ discriminate | ].
  rewrite match_fx in H.
  destruct (N.eqb star c); [ | discriminate ].
  destruct s as [ | l s1 ]; [ discriminate | ].
  destruct (is_letter l); [ | discriminate ].
  pose proof (drop_while_length is_letter s1) as L.
  destruct (drop_while is_letter s1) as [ | x t' ]; [ discriminate | ].
  destruct (N.eqb star x); [ | discriminate ].
  inversion H; subst. simpl in *. lia.
Qed.

Lemma strip_from_length :
  forall s n,
    List.length (sub_from fx_re (fun _ => lit "") n s) + Nat.min n (List.length s)
    <= List.length s.
Proof.
  induction s as [ | c s IH ]; intro n; [ simpl; lia | ].
  destruct n as [ | n ].
  - change (sub_from fx_re (fun _ => lit "") 0 (c :: s))
      with (sub fx_re (fun _ => lit "") (c :: s)).
    rewrite sub_cons.
    destruct (match_at fx_re (c :: s)) as [ [t g] | ] eqn:M.
    + pose proof (match_fx_consumes _ _ _ M) as L.
      destruct (List.length (c :: s) - List.length t) as [ | k ] eqn:K.
      * lia.
      * specialize (IH k). simpl in *. lia.
    + specialize (IH 0). unfold sub. simpl in *. lia.
  - specialize (IH n). simpl in *. lia.
Qed.

(** Where an annotation is found the first pass removes something. *)
Lemma strip_annotations_shrinks :
  forall s,
    has_annotation s = true ->
    List.length (strip_annotations s) < List.length s.
Proof.
  unfold has_annotation, strip_annotations.
  induction s as [ | c s IH ]; intro H; [ discriminate | ].
  simpl in H. rewrite sub_cons.
  destruct (match_at fx_re (c :: s)) as [ [t g] | ] eqn:M.
  - pose proof (match_fx_consumes _ _ _ M) as L.
    destruct (List.length (c :: s) - List.length t) as [ | k ] eqn:K.
    + lia.
    + pose proof (strip_from_length s k). simpl in *. lia.
  - specialize (IH H). simpl. lia.
Qed.

(** ** A run of whitespace between two words *)


Lemma drop_while_spaces :
  forall r y,
    forallb is_space r = true -> head_space y = false ->
    drop_while is_space (r ++ y) = y.
Proof.
  induction r as [ | c r IH ]; intros y Hr Hy.
  - apply drop_while_id. exact Hy.
  - simpl in Hr. apply andb_prop in Hr. destruct Hr as [Hc Hr].
    cbn [app drop_while]. rewrite Hc. apply IH; assumption.
Qed.











Lemma strip_annotations_plain :
  forall s, ~ In star s -> strip_annotations s = s.
Proof.
  intros s H. rewrite <- (app_nil_r s) at 1.
  rewrite strip_annotations_prefix by exact H.
  apply app_nil_r.
Qed.

(** ** The claims about the cleanup *)

(** C3 fails as stated: an annotation that only appears once the first
    one is cut out survives the first cleaning and is removed by the
    second. *)
Lemma cleanup_not_idempotent : ~ idempotent_at Samples.nested.
Proof.
  unfold idempotent_at. vm_compute. discriminate.
Qed.

(** C3, amended. Cleaning is idempotent on a text exactly when its
    cleaned form holds no asterisk-delimited annotation any more: then
    cleaning the cleaned text again gives the same text, and otherwise it
    gives a shorter one. The example of the specification,
    ["Hi there *laughs* , friend !"], is cleaned to ["Hi there, friend!"]. *)
Theorem cleanup_idempotent_once_settled :
  forall s,
    (has_annotation (_strip_sound_effects s) = false -> idempotent_at s)
    /\ (idempotent_at s -> has_annotation (_strip_sound_effects s) = false)
    /\ _strip_sound_effects Samples.greeting = lit "Hi there, friend!".
Proof.
  intro s. unfold idempotent_at. repeat apply conj.
  - intro H.
    rewrite (cleanup_passes (_strip_sound_effects s)).
    unfold strip_annotations. rewrite (sub_not_found _ _ _ H).
    rewrite cleanup_passes. apply normalise_idempotent.
  - intro H.
    destruct (has_annotation (_strip_sound_effects s)) eqn:E;
      [ exfalso | reflexivity ].
    apply strip_annotations_shrinks in E.
    pose proof (normalise_length (strip_annotations (_strip_sound_effects s)))
      as L.
    rewrite <- cleanup_passes, H in L. lia.
  - vm_compute. reflexivity.
Qed.

Lemma cleanup_idempotent_once_settled_witness :
  idempotent_at Samples.greeting
  /\ has_annotation (_strip_sound_effects Samples.greeting) = false.
Proof.
  destruct (cleanup_idempotent_once_settled Samples.greeting) as (F & B & _).
  assert (I : idempotent_at Samples.greeting).
  { apply F. vm_compute. reflexivity. }
  exact (conj I (B I)).
Defined.




End CleanupFacts.

(* ================================================================== *)
(** * More on the reply text cleanup *)
(* ================================================================== *)

Module CleanupMore.
Import Re Main ReFacts CleanupFacts.

Lemma spaces_have_no_star :
  forall s, forallb is_space s = true -> ~ In star s.
Proof.
  induction s as [ | c s IH ]; intros H K; [ exact K | ].
  simpl in H. apply andb_prop in H. destruct H as [Hc Hs].
  destruct K as [ E | K ]; [ subst c; discriminate Hc | exact (IH Hs K) ].
Qed.

Lemma blank_text_cleaned :
  forall s, forallb is_space s = true -> _strip_sound_effects s = [].
Proof.
  intros s H. rewrite cleanup_passes.
  rewrite (strip_annotations_plain s (spaces_have_no_star s H)).
  unfold normalise. destruct s as [ | c s ]; [ reflexivity | ].
  simpl in H. apply andb_prop in H. destruct H as [Hc Hs].
  rewrite (collapse_space c s Hc).
  pose proof (drop_while_spaces s [] Hs eq_refl) as D.
  rewrite app_nil_r in D. rewrite D. reflexivity.
Qed.

(** X1. A text made of whitespace only is cleaned to the empty text. *)
Theorem cleanup_of_blank_text :
  forall s, forallb is_space s = true -> _strip_sound_effects s = [].
Proof.
  intros s H. destruct s as [ | c s ].
  - reflexivity.
  - exact (blank_text_cleaned (c :: s) H).
Qed.

Lemma cleanup_of_blank_text_witness :
  _strip_sound_effects (lit "   ") = [].
Proof.
  apply (cleanup_of_blank_text (lit "   ")). reflexivity.
Defined.

(** X2. The cleaned text is never longer than the text. *)
Theorem cleanup_never_longer :
  forall s, List.length (_strip_sound_effects s) <= List.length s.
Proof.
  intro s. rewrite cleanup_passes.
  pose proof (normalise_length (strip_annotations s)) as L1.
  pose proof (strip_from_length s 0) as L2.
  unfold strip_annotations, sub in *. simpl in L2. lia.
Qed.

(** X3. The texts that the cleanup returns unchanged are exactly the
    texts that hold no asterisk-delimited annotation, start and end with
    a character that is not whitespace, have single plain spaces for
    whitespace, and have no space before one of [,.!?;:]. *)
Theorem cleanup_fixed_points :
  forall s,
    _strip_sound_effects s = s
    <-> (has_annotation s = false
         /\ collapsed s = true
         /\ head_space s = false
         /\ ends_clear s = true
         /\ no_space_before_punct s = true).
Proof.
  intro s. split.
  - intro E.
    destruct (normalise_shape (strip_annotations s)) as (H1 & H2 & H3 & H4).
    rewrite <- cleanup_passes, E in H1, H2, H3, H4.
    repeat apply conj; try assumption.
    destruct (has_annotation s) eqn:A; [ exfalso | reflexivity ].
    apply strip_annotations_shrinks in A.
    pose proof (normalise_length (strip_annotations s)) as L.
    rewrite <- cleanup_passes, E in L. lia.
  - intros (A & H1 & H2 & H3 & H4).
    rewrite cleanup_passes. unfold strip_annotations.
    rewrite (sub_not_found _ _ _ A).
    apply normalise_id; assumption.
Qed.

Lemma cleanup_fixed_points_witness :
  _strip_sound_effects (lit "Hi there, friend!") = lit "Hi there, friend!"
  /\ has_annotation (lit "Hi there, friend!") = false.
Proof.
  destruct (cleanup_fixed_points (lit "Hi there, friend!")) as [F B].
  assert (E : _strip_sound_effects (lit "Hi there, friend!")
              = lit "Hi there, friend!").
  { apply B. repeat apply conj; reflexivity. }
  destruct (F E) as (A & _). exact (conj E A).
Defined.

Lemma strip_from_subset :
  forall x s n,
    In x (sub_from fx_re (fun _ => lit "") n s) -> In x s.
Proof.
  induction s as [ | c s IH ]; intros n H; [ exact H | ].
  destruct n as [ | n ].
  - change (sub_from fx_re (fun _ => lit "") 0 (c :: s))
      with (sub fx_re (fun _ => lit "") (c :: s)) in H.
    rewrite sub_cons in H.
    destruct (match_at fx_re (c :: s)) as [ [t g] | ].
    + destruct (List.length (c :: s) - List.length t) as [ | k ].
      * destruct H as [ E | H ]; [ left; exact E | right ].
        exact (IH 0 H).
      * right. exact (IH k H).
    + destruct H as [ E | H ]; [ left; exact E | right ].
      exact (IH 0 H).
  - right. exact (IH n H).
Qed.

Lemma collapsed_spaces :
  forall s x,
    collapsed s = true -> In x s -> is_space x = true -> x = space.
Proof.
  induction s as [ | c s IH ]; intros x H K Hx; [ contradiction | ].
  destruct K as [ E | K ].
  - subst c. exact (proj1 (collapsed_space _ _ H Hx)).
  - exact (IH x (collapsed_tail _ _ H) K Hx).
Qed.

(** X4. The cleanup invents nothing: a character of the cleaned text
    that is not whitespace is a character of the text, and a whitespace
    character of the cleaned text is the plain space. *)
Theorem cleanup_invents_nothing :
  forall s x,
    In x (_strip_sound_effects s) ->
    (is_space x = false /\ In x s) \/ x = space.
Proof.
  intros s x H. destruct (is_space x) eqn:Hx.
  - right.
    destruct (normalise_shape (strip_annotations s)) as (H1 & _).
    rewrite <- cleanup_passes in H1.
    exact (collapsed_spaces _ x H1 H Hx).
  - left. split; [ reflexivity | ].
    assert (V : In x (filter visible (_strip_sound_effects s))).
    { apply filter_In. split; [ exact H | ].
      unfold visible. rewrite Hx. reflexivity. }
    rewrite cleanup_passes, normalise_content in V.
    apply filter_In in V. destruct V as [V _].
    exact (strip_from_subset x s 0 V).
Qed.

Lemma cleanup_invents_nothing_witness :
  (is_space 33%N = false /\ In 33%N Samples.greeting) \/ 33%N = space.
Proof.
  apply (cleanup_invents_nothing Samples.greeting 33%N).
  vm_compute. do 16 right. left. reflexivity.
Defined.

End CleanupMore.

(* ================================================================== *)
(** * The mention test *)
(* ================================================================== *)

Module MentionFacts.
Import Re Main.

(** A literal word under [re.IGNORECASE] matches where the text starts
    with it, and leaves the rest of the text. *)
Lemma rmatch_word_ci :
  forall (A : Type) w,
    w <> [] ->
    forall s g (k : str -> list str -> option A),
      rmatch (word_ci w) s g k
      = if starts_with_ci w s then k (skipn (List.length w) s) g else None.
Proof.
  intros A w. induction w as [ | c w IH ]; intro Hne; [ contradiction | ].
  intros s g k. destruct w as [ | c2 w ].
  - destruct s as [ | x s ]; [ reflexivity | ].
    cbn [word_ci rmatch starts_with_ci List.length skipn].
    rewrite andb_true_r. reflexivity.
  - change (word_ci (c :: c2 :: w))
      with (Cat (Cls (ci c)) (word_ci (c2 :: w))).
    cbn [rmatch]. destruct s as [ | x s ]; [ reflexivity | ].
    cbn [starts_with_ci]. destruct (ci c x); [ | reflexivity ].
    rewrite IH by discriminate. reflexivity.
Qed.

Lemma mention_at_head :
  forall s,
    match match_at _MENTION_RE s with Some _ => true | None => false end
    = starts_with_ci (lit "nami") s || starts_with_ci (lit "peepingnami") s.
Proof.
  intro s. unfold match_at, _MENTION_RE. cbn [rmatch].
  rewrite !rmatch_word_ci by discriminate.
  destruct (starts_with_ci (lit "nami") s); [ reflexivity | ].
  destruct (starts_with_ci (lit "peepingnami") s); reflexivity.
Qed.

Lemma starts_with_ci_app :
  forall w1 w2 s,
    starts_with_ci (w1 ++ w2) s = true ->
    starts_with_ci w2 (skipn (List.length w1) s) = true.
Proof.
  induction w1 as [ | c w1 IH ]; intros w2 s H; [ exact H | ].
  destruct s as [ | x s ]; [ discriminate | ].
  simpl in H. apply andb_prop in H. destruct H as [_ H].
  exact (IH w2 s H).
Qed.

Lemma contains_ci_skipn :
  forall w n s, contains_ci w (skipn n s) = true -> contains_ci w s = true.
Proof.
  induction n as [ | n IH ]; intros s H; [ exact H | ].
  destruct s as [ | x s ]; [ exact H | ].
  cbn [skipn] in H. cbn [contains_ci].
  rewrite (IH s H). apply orb_true_r.
Qed.

Lemma contains_ci_head :
  forall w s, starts_with_ci w s = true -> contains_ci w s = true.
Proof.
  intros w s H. destruct s; simpl; rewrite H; reflexivity.
Qed.

Lemma contains_ci_split :
  forall w s,
    contains_ci w s = true
    <-> exists a b, s = a ++ b /\ starts_with_ci w b = true.
Proof.
  intros w s. split.
  - induction s as [ | x s IH ]; intro H.
    + exists [], []. split; [ reflexivity | ].
      simpl in H. rewrite orb_false_r in H. exact H.
    + cbn [contains_ci] in H. apply orb_prop in H. destruct H as [ H | H ].
      * exists [], (x :: s). auto.
      * destruct (IH H) as (a & b & -> & Hb).
        exists (x :: a), b. auto.
  - intros (a & b & -> & Hb). induction a as [ | x a IH ].
    + apply contains_ci_head. exact Hb.
    + cbn [app contains_ci]. rewrite IH. apply orb_true_r.
Qed.

(** X5. A chat text is taken for a mention exactly when the letters
    n, a, m, i occur in it in a row, in upper or lower case; the second
    alternative of the pattern, [peepingnami], adds nothing. *)
Theorem mention_iff_contains_nami :
  forall text,
    search _MENTION_RE text = contains_ci (lit "nami") text
    /\ (search _MENTION_RE text = true
        <-> exists before rest,
              text = before ++ rest
              /\ starts_with_ci (lit "nami") rest = true).
Proof.
  assert (E : forall text,
             search _MENTION_RE text = contains_ci (lit "nami") text).
  { induction text as [ | x text IH ].
    - reflexivity.
    - cbn [search contains_ci].
      pose proof (mention_at_head (x :: text)) as M.
      destruct (match_at _MENTION_RE (x :: text)).
      + symmetry in M. apply orb_prop in M. destruct M as [ M | M ].
        * rewrite M. reflexivity.
        * apply (starts_with_ci_app (lit "peeping") (lit "nami")) in M.
          apply contains_ci_head in M.
          apply contains_ci_skipn in M.
          cbn [contains_ci] in M. symmetry. exact M.
      + symmetry in M. apply orb_false_elim in M. destruct M as [M _].
        rewrite M, IH. reflexivity. }
  intro text. split; [ apply E | ].
  rewrite E. apply contains_ci_split.
Qed.

Lemma mention_iff_contains_nami_witness :
  search _MENTION_RE (lit "hey NaMi, hi") = true.
Proof.
  apply (proj2 (proj2 (mention_iff_contains_nami (lit "hey NaMi, hi")))).
  exists (lit "hey "), (lit "NaMi, hi"). split; reflexivity.
Defined.

End MentionFacts.

(* ================================================================== *)
(** * More on the event-channel connector *)
(* ================================================================== *)

Module DirectorBridgeMore.
Import DirectorBridge Samples ConnectorFacts.

(** X6. A send never loses an event silently and never touches the
    connection: either the event is appended to what was written and
    nothing is printed, or nothing is written and exactly one line that
    names the event is printed. What was written before stays as it was. *)
Theorem safe_emit_writes_or_reports :
  forall event payload st,
    connected (snd (_safe_emit event payload st)) = connected st
    /\ ((sent (snd (_safe_emit event payload st))
         = sent st ++ [(event, payload)]
         /\ stdout (snd (_safe_emit event payload st)) = stdout st)
        \/ (sent (snd (_safe_emit event payload st)) = sent st
            /\ (stdout (snd (_safe_emit event payload st))
                = stdout st ++ [DropEvent event]
                \/ exists e,
                     stdout (snd (_safe_emit event payload st))
                     = stdout st ++ [EmitError event e]))).
Proof.
  intros event payload [up written fs out].
  unfold _safe_emit, try_except, sio_emit. simpl.
  destruct up; simpl.
  - destruct fs as [ | [ e | ] fs ]; simpl.
    + split; [ reflexivity | left; split; reflexivity ].
    + split; [ reflexivity | right; split; [ reflexivity | ] ].
      right. exists e. reflexivity.
    + split; [ reflexivity | left; split; reflexivity ].
  - split; [ reflexivity | right; split; [ reflexivity | ] ].
    left. reflexivity.
Qed.

Lemma safe_emit_accounts :
  forall event payload st,
    List.length (sent (snd (_safe_emit event payload st)))
    + List.length (stdout (snd (_safe_emit event payload st)))
    = List.length (sent st) + List.length (stdout st) + 1.
Proof.
  intros event payload [up written fs out].
  unfold _safe_emit, try_except, sio_emit. simpl.
  destruct up; simpl.
  - destruct fs as [ | [ e | ] fs ]; simpl; rewrite length_app; simpl; lia.
  - rewrite length_app. simpl. lia.
Qed.

Lemma safe_emit_returned :
  forall event payload st, fst (_safe_emit event payload st) = Returned tt.
Proof.
  intros event payload st.
  unfold _safe_emit, try_except, sio_emit.
  destruct (connected st); [ | reflexivity ].
  destruct (faults st) as [ | [ e | ] rest ]; reflexivity.
Qed.

(** X7. Whatever the connection and the transport do, the two events of
    a chat message are each either written or reported: handling one
    message adds exactly two entries to the events written and the lines
    printed, taken together. *)
Theorem handler_accounts_for_both_events :
  forall msg st,
    List.length (sent (snd (Main._handle_twitch_message msg st)))
    + List.length (stdout (snd (Main._handle_twitch_message msg st)))
    = List.length (sent st) + List.length (stdout st) + 2.
Proof.
  intros msg st. unfold Main._handle_twitch_message, emit_twitch_message,
                   emit_scored_event.
  set (e1 := _safe_emit "twitch_message" _ st).
  pose proof (safe_emit_returned "twitch_message"
                (twitch_message_payload (TwitchClient.user_name msg)
                   (TwitchClient.text msg)) st) as R.
  pose proof (safe_emit_accounts "twitch_message"
                (twitch_message_payload (TwitchClient.user_name msg)
                   (TwitchClient.text msg)) st) as A1.
  fold e1 in R, A1. destruct e1 as [r st1]. simpl in R, A1. subst r.
  rewrite safe_emit_accounts. lia.
Qed.

(** X8. After a failed attempt the loop waits at least 5 and at most 30
    seconds before it calls [sio.connect] again, however many failures
    came before. *)
Theorem retry_delay_bounds :
  forall script e,
    forallb uninterrupted script = true ->
    10 <= retry_delay (snd (_run_connector (script ++ [Raises e None])))
    /\ retry_delay (snd (_run_connector (script ++ [Raises e None]))) <= 60.
Proof.
  intros script e H. unfold _run_connector.
  destruct (then_failure script e 0 H) as [_ D]. rewrite D.
  destruct (is_connection_error e); lia.
Qed.

Lemma retry_delay_bounds_witness :
  10 <= retry_delay (snd (_run_connector ([refused; refused] ++ [refused])))
  /\ retry_delay (snd (_run_connector ([refused; refused] ++ [refused])))
     <= 60.
Proof.
  apply (retry_delay_bounds [refused; refused]
           (ConnectionError (lit "Connection refused"))).
  reflexivity.
Defined.

Lemma backoff_sleeps_stopped :
  forall n i k,
    i <= k -> k < i + n ->
    backoff_sleeps n i (Some k) = (repeat (Sleep 1) (k - i), false).
Proof.
  induction n as [ | n IH ]; intros i k H1 H2; [ lia | ].
  cbn [backoff_sleeps]. destruct (Nat.eqb k i) eqn:E.
  - apply Nat.eqb_eq in E. subst k. rewrite Nat.sub_diag. reflexivity.
  - apply Nat.eqb_neq in E.
    rewrite (IH (S i) k) by lia.
    replace (k - i) with (S (k - S i)) by lia. reflexivity.
Qed.

(** X9. When [stop()] is seen during the backoff that follows a
    recognized failure, the loop ends there: it has slept half a second
    for each check passed, and it makes no further call whatever would
    have come next. *)
Theorem stop_ends_backoff :
  forall pre rest msg k,
    forallb uninterrupted pre = true ->
    k < 10 ->
    _run_connector (pre ++ Raises (ConnectionError msg) (Some k) :: rest)
    = _run_connector (pre ++ [Raises (ConnectionError msg) (Some k)])
    /\ retry_delay
         (snd (_run_connector
                 (pre ++ Raises (ConnectionError msg) (Some k) :: rest)))
       = k.
Proof.
  intros pre rest msg k Hpre Hk. unfold _run_connector.
  rewrite !(connector_loop_app pre _ 0 Hpre).
  set (f := fst (connector_loop pre 0)).
  set (t := snd (connector_loop pre 0)).
  assert (B : backoff_sleeps (Nat.min (5 * (f + 1)) 30 * 2) 0 (Some k)
              = (repeat (Sleep 1) (k - 0), false))
    by (apply backoff_sleeps_stopped; lia).
  cbn [connector_loop pass is_connection_error].
  rewrite B. cbn [fst snd]. split; [ reflexivity | ].
  unfold retry_delay. rewrite slept_app. cbn [slept_since_connect_from].
  rewrite slept_sleeps. lia.
Qed.

Lemma stop_ends_backoff_witness :
  _run_connector ([refused]
                    ++ Raises (ConnectionError []) (Some 3) :: [refused])
  = _run_connector ([refused] ++ [Raises (ConnectionError []) (Some 3)])
  /\ retry_delay
       (snd (_run_connector
               ([refused]
                  ++ Raises (ConnectionError []) (Some 3) :: [refused])))
     = 3.
Proof.
  apply (stop_ends_backoff [refused] [refused] [] 3).
  - reflexivity.
  - lia.
Defined.

End DirectorBridgeMore.

(* ================================================================== *)
(** * More on the chat-provider connector *)
(* ================================================================== *)

Module TwitchClientMore.
Import TwitchClient Samples.

Lemma not_ready_count_app :
  forall a b,
    not_ready_count (a ++ b) = not_ready_count a + not_ready_count b.
Proof.
  intros a b. unfold not_ready_count.
  rewrite filter_app, length_app. reflexivity.
Qed.

Lemma step_without_queue :
  forall e st,
    _message_queue st = None ->
    _message_queue (step e st) = None
    /\ _chat (step e st) = _chat st
    /\ not_ready_count (stdout (step e st))
       = not_ready_count (stdout st)
         + match e with Enqueue _ _ => 1 | Drain _ => 0 end.
Proof.
  intros e [c l q r a out] H. simpl in H. subst q.
  destruct e as [ caller t | fault ]; simpl.
  - unfold send_message. simpl.
    destruct l; simpl; rewrite not_ready_count_app; auto.
  - destruct r; simpl; auto.
Qed.

(** X10. A client whose queue was never created (never started, or
    started without credentials) rejects every send: whatever the callers
    and the sender loop do, nothing is queued, nothing reaches the
    provider, and each call of [send_message] prints one "not ready"
    warning. *)
Theorem unstarted_client_rejects_every_send :
  forall schedule st,
    _message_queue st = None ->
    pending (run schedule st) = []
    /\ handed (run schedule st) = handed st
    /\ not_ready_count (stdout (run schedule st))
       = not_ready_count (stdout st) + enqueue_count schedule.
Proof.
  induction schedule as [ | e schedule IH ]; intros st H.
  - cbn [run enqueue_count]. unfold pending. rewrite H. auto.
  - destruct (step_without_queue e st H) as (Hq & Hc & Hn).
    destruct (IH (step e st) Hq) as (I1 & I2 & I3).
    cbn [run]. rewrite I1, I2, I3, Hn.
    unfold handed. rewrite Hc.
    repeat split. destruct e; simpl; lia.
Qed.

Lemma unstarted_client_rejects_every_send_witness :
  pending (run schedule0 fresh) = []
  /\ handed (run schedule0 fresh) = handed fresh
  /\ not_ready_count (stdout (run schedule0 fresh))
     = not_ready_count (stdout fresh) + enqueue_count schedule0.
Proof.
  apply (unstarted_client_rejects_every_send schedule0 fresh).
  reflexivity.
Defined.

(** X11. While the client runs, the sender loop empties the queue however
    many sends the provider rejects: after as many passes as there are
    queued texts the loop has returned normally from each, the queue is
    empty, and the provider has received the queued texts in their order,
    the [i]-th with the [i]-th answer. *)
Theorem sender_loop_drains_queue :
  forall faults st c q,
    _chat st = Some c ->
    _message_queue st = Some q ->
    _is_running st = true ->
    List.length q <= List.length faults ->
    fst (_sender_loop faults st) = Returned tt
    /\ _message_queue (snd (_sender_loop faults st)) = Some []
    /\ _chat (snd (_sender_loop faults st))
       = Some {| calls := calls c ++ combine q faults |}.
Proof.
  induction faults as [ | f faults IH ]; intros st c q Hc Hq Hr Hl.
  - destruct q; [ | simpl in Hl; lia ].
    simpl. rewrite app_nil_r. destruct c. auto.
  - cbn [_sender_loop]. rewrite Hr.
    destruct st as [c0 l q0 r a out]. simpl in Hc, Hq, Hr. subst c0 q0 r.
    destruct q as [ | m q ].
    + unfold sender_pass. cbn.
      destruct (IH {| _chat := Some c; _event_loop := l;
                      _message_queue := Some []; _is_running := true;
                      _auth_tokens := a; stdout := out |}
                   c [] eq_refl eq_refl eq_refl ltac:(simpl; lia))
        as (I1 & I2 & I3).
      rewrite I1, I2, I3. simpl. auto.
    + unfold sender_pass, try_except, chat_send. cbn.
      destruct f as [ e | ]; cbn;
        match goal with
        | |- context [ _sender_loop faults ?s ] =>
            destruct (IH s {| calls := calls c ++ [(m, _)] |} q
                        eq_refl eq_refl eq_refl ltac:(simpl in Hl; lia))
              as (I1 & I2 & I3)
        end;
        rewrite I1, I2, I3; cbn; rewrite <- app_assoc; auto.
Qed.

Lemma sender_loop_drains_queue_witness :
  fst (_sender_loop [None; Some (RuntimeError []); None]
         (send_message (lit "b") (send_message (lit "a") ready)))
  = Returned tt
  /\ _message_queue
       (snd (_sender_loop [None; Some (RuntimeError []); None]
               (send_message (lit "b") (send_message (lit "a") ready))))
     = Some []
  /\ _chat
       (snd (_sender_loop [None; Some (RuntimeError []); None]
               (send_message (lit "b") (send_message (lit "a") ready))))
     = Some {| calls := calls {| calls := [] |}
                        ++ combine [lit "a"; lit "b"]
                             [None; Some (RuntimeError []); None] |}.
Proof.
  apply (sender_loop_drains_queue
           [None; Some (RuntimeError []); None]
           (send_message (lit "b") (send_message (lit "a") ready))
           {| calls := [] |} [lit "a"; lit "b"]).
  - reflexivity.
  - reflexivity.
  - reflexivity.
  - simpl. lia.
Defined.

(** X12. [authenticate] never raises and stores the credential pair or
    changes nothing: it returns [True] with the pair that the OAuth flow
    gave stored in [_auth_tokens] and every other global as before, or it
    returns [False] with the module exactly as it was. The latter is the
    case also when the pair was obtained and only the closing of the
    session failed. *)
Theorem authenticate_all_or_nothing :
  forall o st,
    (fst (fst (authenticate o st)) = Returned true
     /\ (exists pair,
            user_tokens o = Returned pair
            /\ snd (fst (authenticate o st))
               = {| _chat := _chat st; _event_loop := _event_loop st;
                    _message_queue := _message_queue st;
                    _is_running := _is_running st;
                    _auth_tokens := Some pair; stdout := stdout st |})
     /\ open_session o = None /\ close_session o = None)
    \/ (fst (fst (authenticate o st)) = Returned false
        /\ snd (fst (authenticate o st)) = st
        /\ (open_session o <> None
            \/ (exists e, user_tokens o = Raised e)
            \/ close_session o <> None)).
Proof.
  intros [op tk cl] st. unfold authenticate. simpl.
  destruct op as [ e | ].
  - right. repeat split. left. discriminate.
  - destruct tk as [ [token refresh] | e ].
    + destruct cl as [ e | ].
      * right. repeat split. right. right. discriminate.
      * left. repeat split. exists (token, refresh). split; reflexivity.
    + right. repeat split. right. left. exists e. reflexivity.
Qed.




Lemma send_message_keeps_session :
  forall text st,
    _chat (send_message text st) = _chat st
    /\ _is_running (send_message text st) = _is_running st.
Proof.
  intros text [c l q r a out]. unfold send_message.
  destruct l, q; simpl; auto.
Qed.

Lemma sender_pass_hands_at_most_one :
  forall fault st,
    _is_running (snd (sender_pass fault st)) = _is_running st
    /\ exists late,
         handed (snd (sender_pass fault st)) = handed st ++ late
         /\ List.length late <= 1.
Proof.
  intros fault [c l q r a out].
  unfold sender_pass, try_except, chat_send, handed. simpl.
  destruct q as [ [ | m q ] | ]; simpl.
  - split; [ reflexivity | ]. exists []. rewrite app_nil_r. auto.
  - destruct c as [ c | ]; simpl.
    + destruct fault; simpl; (split; [ reflexivity | ]);
        exists [m]; rewrite map_app; auto.
    + split; [ reflexivity | ]. exists []. auto.
  - split; [ reflexivity | ]. exists []. rewrite app_nil_r. auto.
Qed.

Lemma play_when_stopped :
  forall moments st pos,
    _is_running st = false ->
    exists late,
      handed (fst (play moments (st, pos))) = handed st ++ late
      /\ List.length late <= sends_under_way pos.
Proof.
  induction moments as [ | m moments IH ]; intros st pos Hr.
  - exists []. simpl. rewrite app_nil_r. split; [ reflexivity | lia ].
  - cbn [play]. destruct m as [ text | | | fault ]; cbn [moment_step].
    + destruct (send_message_keeps_session text st) as [Kc Kr].
      destruct (IH (send_message text st) pos) as (late & H & L);
        [ rewrite Kr; exact Hr | ].
      exists late. split; [ | exact L ].
      rewrite H. unfold handed. rewrite Kc. reflexivity.
    + destruct (IH (fst (stop st)) pos eq_refl) as (late & H & L).
      exists late. split; [ | exact L ]. rewrite H. reflexivity.
    + destruct pos.
      * rewrite Hr. destruct (IH st Exited Hr) as (late & H & L).
        exists late. split; [ exact H | simpl in *; lia ].
      * apply IH. exact Hr.
      * apply IH. exact Hr.
    + destruct pos; try (apply IH; exact Hr).
      destruct (sender_pass_hands_at_most_one fault st)
        as (Kr & one & H1 & L1).
      destruct (sender_pass fault st) as [ [ u | e ] st' ]; cbn [snd] in *;
        [ destruct (IH st' AtTest) as (late & H & L)
        | destruct (IH st' Exited) as (late & H & L) ];
        try (rewrite Kr; exact Hr);
        simpl in L; destruct late; try (simpl in L; lia);
        exists one; rewrite H, H1, app_nil_r; auto.
Qed.

(** X14. After [stop()] the provider receives at most one more text,
    whatever the callers and the loop do next, other calls of [stop()]
    included: the pass that was inside its wait on the queue, if there was
    one, may still take a text and send it, and no pass starts after it.
    That one send does happen: a text enqueued after [stop()] while the
    loop of a started client waits on an empty queue is handed to the
    provider when the wait ends. *)
Theorem at_most_one_send_after_stop :
  forall moments st pos,
    (exists late,
        handed (fst (play moments (fst (stop st), pos))) = handed st ++ late
        /\ List.length late <= sends_under_way pos)
    /\ (forall text fault,
           started st -> _message_queue st = Some [] ->
           handed (fst (play [Sends text; Wakes fault]
                          (fst (stop st), InWait)))
           = handed st ++ [text]).
Proof.
  intros moments st pos. split.
  - exact (play_when_stopped moments (fst (stop st)) pos eq_refl).
  - intros text fault (Hl & _ & Hc) Hq.
    destruct st as [c l q r a out]. simpl in *. subst q.
    destruct c as [ c | ]; [ | contradiction ].
    destruct l as [ l | ]; [ | contradiction ].
    unfold send_message, sender_pass, try_except, chat_send. simpl.
    destruct fault; unfold handed; simpl; rewrite map_app; reflexivity.
Qed.

Lemma at_most_one_send_after_stop_witness :
  handed (fst (play [Sends (lit "late"); Wakes None]
                 (fst (stop ready), InWait)))
  = handed ready ++ [lit "late"].
Proof.
  apply (proj2 (at_most_one_send_after_stop [] ready InWait)
           (lit "late") None).
  - unfold started, ready; simpl. repeat split; discriminate.
  - reflexivity.
Defined.

End TwitchClientMore.

(* ================================================================== *)
(** * More on the orchestrator *)
(* ================================================================== *)

Module MainMore.
Import Main Samples.

(** X15. [POST /chat/send] answers [ok] with the text it built whether
    or not the text was accepted: on a client that is not ready the text
    is dropped with the "not ready" warning and the answer is the same.
    The text is [@username message] when a username that is not empty is
    given and the message alone otherwise; a ready client gets it at the
    tail of its queue. *)
Theorem manual_send_answers_ok_regardless :
  forall payload tc,
    let text :=
      match username payload with
      | Some (c :: u) => lit "@" ++ (c :: u) ++ lit " " ++ message payload
      | _ => message payload
      end in
    fst (send_chat_message payload tc)
    = [("ok", VBool true); ("sent", VStr text)]%string
    /\ (TwitchClient._message_queue tc = None ->
        TwitchClient.pending (snd (send_chat_message payload tc)) = []
        /\ TwitchClient.stdout (snd (send_chat_message payload tc))
           = TwitchClient.stdout tc ++ [TwitchClient.NotReady])
    /\ (TwitchClient._event_loop tc <> None ->
        TwitchClient._message_queue tc <> None ->
        TwitchClient.pending (snd (send_chat_message payload tc))
        = TwitchClient.pending tc ++ [text]
        /\ TwitchClient.stdout (snd (send_chat_message payload tc))
           = TwitchClient.stdout tc).
Proof.
  intros [m u] tc. cbn zeta. unfold send_chat_message. cbn [username message].
  assert (E : match u with
              | Some u0 =>
                  if nonempty u0 then lit "@" ++ u0 ++ lit " " ++ m else m
              | None => m
              end
              = match u with
                | Some (c :: u0) => lit "@" ++ (c :: u0) ++ lit " " ++ m
                | _ => m
                end).
  { destruct u as [ [ | c u0 ] | ]; reflexivity. }
  rewrite E. cbn [fst snd]. split; [ reflexivity | ]. split.
  - intro Hq. unfold TwitchClient.send_message. rewrite Hq.
    destruct (TwitchClient._event_loop tc);
      unfold TwitchClient.pending; simpl; rewrite Hq; auto.
  - intros Hl Hq. unfold TwitchClient.send_message, TwitchClient.pending.
    destruct (TwitchClient._event_loop tc); [ | contradiction ].
    destruct (TwitchClient._message_queue tc); [ | contradiction ].
    simpl. auto.
Qed.

Lemma manual_send_answers_ok_regardless_witness :
  fst (send_chat_message manual_send fresh)
  = [("ok", VBool true); ("sent", VStr (lit "@viewer hello"))]%string
  /\ TwitchClient.pending (snd (send_chat_message manual_send fresh)) = []
  /\ TwitchClient.pending (snd (send_chat_message manual_send ready))
     = [lit "@viewer hello"].
Proof.
  destruct (manual_send_answers_ok_regardless manual_send fresh)
    as (R & D & _).
  destruct (manual_send_answers_ok_regardless manual_send ready)
    as (_ & _ & A).
  split; [ exact R | ]. split.
  - exact (proj1 (D eq_refl)).
  - apply A; discriminate.
Defined.

(** X16. A bot reply produces no chat send, and changes nothing at all,
    when its [reply] is missing, empty or otherwise false, and also when
    it is not censored and its text is whitespace only. *)
Theorem empty_and_blank_replies_are_dropped :
  forall data w,
    (truthy (get data "reply" (VStr (lit ""))) = false ->
     _handle_bot_reply data w = (Returned tt, w))
    /\ (forall s,
           get data "reply" (VStr (lit "")) = VStr s ->
           forallb is_space s = true ->
           truthy (get data "is_censored" VNone) = false ->
           _handle_bot_reply data w = (Returned tt, w)).
Proof.
  intros data w. split.
  - intro H. unfold _handle_bot_reply. rewrite H. reflexivity.
  - intros s Hs Hb Hc. unfold _handle_bot_reply. rewrite Hs, Hc.
    unfold strip_sound_effects_of.
    rewrite (CleanupMore.blank_text_cleaned s Hb).
    destruct (negb (truthy (VStr s))); reflexivity.
Qed.

Lemma empty_and_blank_replies_are_dropped_witness :
  _handle_bot_reply [] world0 = (Returned tt, world0)
  /\ _handle_bot_reply blank_reply world0 = (Returned tt, world0).
Proof.
  split.
  - apply (proj1 (empty_and_blank_replies_are_dropped [] world0)).
    reflexivity.
  - apply (proj2 (empty_and_blank_replies_are_dropped blank_reply world0)
             (lit "   ")); reflexivity.
Defined.

Lemma send_message_queue :
  forall text tc,
    TwitchClient.pending (TwitchClient.send_message text tc)
    = TwitchClient.pending tc
    \/ TwitchClient.pending (TwitchClient.send_message text tc)
       = TwitchClient.pending tc ++ [text].
Proof.
  intros text [c l q r a out]. unfold TwitchClient.send_message.
  destruct l, q; simpl; unfold TwitchClient.pending; simpl; auto.
Qed.

Lemma send_message_keeps :
  forall text tc,
    TwitchClient._chat (TwitchClient.send_message text tc)
    = TwitchClient._chat tc
    /\ TwitchClient._is_running (TwitchClient.send_message text tc)
       = TwitchClient._is_running tc
    /\ TwitchClient._auth_tokens (TwitchClient.send_message text tc)
       = TwitchClient._auth_tokens tc.
Proof.
  intros text [c l q r a out]. unfold TwitchClient.send_message.
  destruct l, q; simpl; auto.
Qed.

(** X17. The reply handler only ever appends to the chat queue, and
    never an empty text: after any payload the director-side state, the
    provider session, the running flag and the credentials are as before,
    and the queue is as before or longer by one text that is not empty.
    When the handler raises (a [reply] that is not a string), nothing has
    changed. *)
Theorem reply_handler_only_enqueues :
  forall data w,
    director (snd (_handle_bot_reply data w)) = director w
    /\ TwitchClient._chat (twitch (snd (_handle_bot_reply data w)))
       = TwitchClient._chat (twitch w)
    /\ TwitchClient._is_running (twitch (snd (_handle_bot_reply data w)))
       = TwitchClient._is_running (twitch w)
    /\ TwitchClient._auth_tokens (twitch (snd (_handle_bot_reply data w)))
       = TwitchClient._auth_tokens (twitch w)
    /\ (TwitchClient.pending (twitch (snd (_handle_bot_reply data w)))
        = TwitchClient.pending (twitch w)
        \/ exists text,
             text <> []
             /\ TwitchClient.pending (twitch (snd (_handle_bot_reply data w)))
                = TwitchClient.pending (twitch w) ++ [text])
    /\ (fst (_handle_bot_reply data w) <> Returned tt ->
        snd (_handle_bot_reply data w) = w).
Proof.
  intros data w. unfold _handle_bot_reply.
  destruct (negb (truthy (get data "reply" (VStr (lit ""))))).
  - repeat split; auto; try (intro K; contradiction).
  - destruct (if truthy (get data "is_censored" VNone)
              then Returned (lit "*censored*")
              else strip_sound_effects_of (get data "reply" (VStr (lit ""))))
      as [ chat_msg | e ].
    + destruct chat_msg as [ | c chat_msg ]; cbn [nonempty fst snd].
      * repeat split; auto; try (intro K; contradiction).
      * cbn [twitch director].
        destruct (send_message_keeps (c :: chat_msg) (twitch w))
          as (K1 & K2 & K3).
        repeat split; try assumption.
        -- destruct (send_message_queue (c :: chat_msg) (twitch w))
             as [ Q | Q ]; [ left; exact Q | right ].
           exists (c :: chat_msg). split; [ discriminate | exact Q ].
        -- intro K. contradiction.
    + cbn [fst snd]. repeat split; auto.
Qed.

Lemma reply_handler_only_enqueues_witness :
  snd (_handle_bot_reply [("reply", VInt 5)]%string world0) = world0.
Proof.
  apply (proj2 (proj2 (proj2 (proj2 (proj2
           (reply_handler_only_enqueues [("reply", VInt 5)]%string
              world0)))))).
  vm_compute. discriminate.
Defined.

(** X18. A reply travels from the director to the chat: with
    [_handle_bot_reply] registered and the client started with an empty
    queue, an uncensored reply whose cleaned text is not empty is handled
    without error, and the next pass of the sender loop hands exactly the
    cleaned text to the provider and leaves the queue empty. *)
Theorem reply_reaches_chat :
  forall data s p c fault,
    _on_bot_reply_cb p = Some _handle_bot_reply ->
    TwitchClient._chat (twitch (handlers_world p)) = Some c ->
    TwitchClient._event_loop (twitch (handlers_world p)) <> None ->
    TwitchClient._message_queue (twitch (handlers_world p)) = Some [] ->
    TwitchClient._is_running (twitch (handlers_world p)) = true ->
    get data "reply" (VStr (lit "")) = VStr s ->
    truthy (get data "is_censored" VNone) = false ->
    _strip_sound_effects s <> [] ->
    let after :=
      TwitchClient.step (TwitchClient.Drain fault)
        (twitch (handlers_world (snd (on_bot_reply data p)))) in
    fst (on_bot_reply data p) = Returned tt
    /\ TwitchClient.handed after
       = TwitchClient.handed (twitch (handlers_world p))
         ++ [_strip_sound_effects s]
    /\ TwitchClient.pending after = [].
Proof.
  intros data s p c fault Hcb Hc Hl Hq Hr Hs Hcen Hne.
  destruct p as [w cb1 cb2 ct th out]. simpl in *. subst cb1.
  destruct w as [tc db mo]. simpl in *.
  destruct tc as [c0 l q r a tout]. simpl in *. subst c0 q r.
  destruct l as [ l | ]; [ | contradiction ].
  assert (Hs' : s <> []) by (intros ->; apply Hne; reflexivity).
  unfold on_bot_reply, _handle_bot_reply. cbn [_on_bot_reply_cb handlers_world].
  rewrite Hs, Hcen. unfold strip_sound_effects_of.
  destruct s as [ | x s ]; [ contradiction | ]. cbn [truthy nonempty negb].
  destruct (_strip_sound_effects (x :: s)) as [ | y out1 ] eqn:E;
    [ contradiction | ].
  cbn. unfold TwitchClient.handed, TwitchClient.pending.
  destruct fault; cbn; rewrite map_app; auto.
Qed.

Lemma reply_reaches_chat_witness :
  TwitchClient.handed
    (TwitchClient.step (TwitchClient.Drain None)
       (twitch (handlers_world
                  (snd (on_bot_reply plain_reply
                          (lifespan_startup oauth_ok None [] process0))))))
  = [lit "well done!"].
Proof.
  destruct (reply_reaches_chat plain_reply (lit "well  done *claps* !")
              (lifespan_startup oauth_ok None [] process0)
              {| TwitchClient.calls := [] |} None
              eq_refl eq_refl ltac:(discriminate) eq_refl eq_refl
              eq_refl eq_refl ltac:(vm_compute; discriminate))
    as (_ & H & _).
  exact H.
Defined.

Lemma idle_sender_loop :
  forall faults st,
    TwitchClient._message_queue st = Some [] ->
    TwitchClient._sender_loop faults st = (Returned tt, st).
Proof.
  induction faults as [ | f faults IH ]; intros st H; [ reflexivity | ].
  cbn [TwitchClient._sender_loop].
  destruct (TwitchClient._is_running st); [ | reflexivity ].
  unfold TwitchClient.sender_pass. rewrite H. apply IH. exact H.
Qed.

(** X19. [lifespan] starts the chat client only with credentials stored.
    Both callbacks are registered and the connector thread is started in
    every case. When [authenticate] succeeds the credential pair is
    stored, the chat thread is started, and the thread ends only on an
    exception of the provider (if opening the session works, the client
    is started). When [authenticate] fails, [start()] is not called: the
    chat client is left as it was and the failure is printed. *)
Theorem lifespan_starts_chat_only_with_credentials :
  forall o setup faults p,
    let p' := lifespan_startup o setup faults p in
    let auth := TwitchClient.authenticate o (twitch (handlers_world p)) in
    _on_bot_reply_cb p' = Some _handle_bot_reply
    /\ _on_message_cb p' = Some _handle_twitch_message
    /\ _connector_thread p' = true
    /\ director (handlers_world p') = director (handlers_world p)
    /\ (fst (fst auth) = Returned true ->
        exists pair t,
          TwitchClient._auth_tokens (twitch (handlers_world p')) = Some pair
          /\ chat_thread p' = Some t
          /\ TwitchClient.target_result t
             = match setup with
               | Some e => Raised e
               | None => Returned tt
               end
          /\ (setup = None -> TwitchClient.started (twitch (handlers_world p'))))
    /\ (fst (fst auth) = Returned false ->
        twitch (handlers_world p') = twitch (handlers_world p)
        /\ chat_thread p' = chat_thread p
        /\ In AuthFailed (console p')).
Proof.
  intros o setup faults [w cb1 cb2 ct th out]. cbn zeta.
  unfold lifespan_startup. cbn [handlers_world chat_thread console].
  destruct o as [op tk cl]. unfold TwitchClient.authenticate.
  cbn [TwitchClient.open_session TwitchClient.user_tokens
       TwitchClient.close_session].
  destruct op as [ e | ];
    [ cbn; repeat split; try discriminate;
      repeat rewrite in_app_iff; simpl; tauto | ].
  destruct tk as [ [token refresh] | e ];
    [ | cbn; repeat split; try discriminate;
        repeat rewrite in_app_iff; simpl; tauto ].
  destruct cl as [ e | ];
    [ cbn; repeat split; try discriminate;
      repeat rewrite in_app_iff; simpl; tauto | ].
  cbn [fst snd].
  unfold TwitchClient.start, TwitchClient._thread_target, TwitchClient._run.
  cbn [TwitchClient._auth_tokens TwitchClient.set_event_loop
       TwitchClient.set_running TwitchClient.set_queue].
  destruct setup as [ e | ].
  - cbn. repeat split; try discriminate.
    exists (token, refresh). eexists. repeat split;
      match goal with K : Some _ = None |- _ => discriminate K end.
  - rewrite idle_sender_loop by reflexivity.
    cbn. repeat split; try discriminate.
    exists (token, refresh). eexists. repeat split; discriminate.
Qed.

Lemma lifespan_starts_chat_only_with_credentials_witness :
  (exists pair t,
      TwitchClient._auth_tokens
        (twitch (handlers_world (lifespan_startup oauth_ok None [] process0)))
      = Some pair
      /\ chat_thread (lifespan_startup oauth_ok None [] process0) = Some t
      /\ TwitchClient.target_result t = Returned tt
      /\ (@None exn = None ->
          TwitchClient.started
            (twitch (handlers_world
                       (lifespan_startup oauth_ok None [] process0)))))
  /\ chat_thread (lifespan_startup oauth_declined None [] process0) = None.
Proof.
  destruct (lifespan_starts_chat_only_with_credentials
              oauth_ok None [] process0) as (_ & _ & _ & _ & S & _).
  destruct (lifespan_starts_chat_only_with_credentials
              oauth_declined None [] process0) as (_ & _ & _ & _ & _ & F).
  split.
  - exact (S eq_refl).
  - destruct (F eq_refl) as (_ & T & _). exact T.
Defined.

Lemma reply_handler_without_queue :
  forall data w,
    TwitchClient._message_queue (twitch w) = None ->
    TwitchClient._message_queue (twitch (snd (_handle_bot_reply data w)))
    = None
    /\ TwitchClient._chat (twitch (snd (_handle_bot_reply data w)))
       = TwitchClient._chat (twitch w).
Proof.
  intros data w H. unfold _handle_bot_reply.
  destruct (negb (truthy (get data "reply" (VStr (lit ""))))); [ auto | ].
  destruct (if truthy (get data "is_censored" VNone)
            then Returned (lit "*censored*")
            else strip_sound_effects_of (get data "reply" (VStr (lit ""))))
    as [ chat_msg | e ]; [ | auto ].
  destruct (nonempty chat_msg); [ | auto ].
  cbn [snd twitch]. unfold TwitchClient.send_message. rewrite H.
  destruct (TwitchClient._event_loop (twitch w)); simpl; auto.
Qed.

(** X20. With authentication failed the chat side stays disabled: after
    [lifespan] has started the service on a client that has no queue,
    whatever reply the director broadcasts, nothing is queued and nothing
    reaches the provider. *)
Theorem failed_auth_disables_chat :
  forall o setup faults p data,
    fst (fst (TwitchClient.authenticate o (twitch (handlers_world p))))
    = Returned false ->
    TwitchClient._message_queue (twitch (handlers_world p)) = None ->
    let p' := snd (on_bot_reply data (lifespan_startup o setup faults p)) in
    TwitchClient.pending (twitch (handlers_world p')) = []
    /\ TwitchClient.handed (twitch (handlers_world p'))
       = TwitchClient.handed (twitch (handlers_world p)).
Proof.
  intros o setup faults p data Ha Hq. cbn zeta.
  assert (E : exists out,
             lifespan_startup o setup faults p
             = {| handlers_world := handlers_world p;
                  _on_bot_reply_cb := Some _handle_bot_reply;
                  _on_message_cb := Some _handle_twitch_message;
                  _connector_thread := true;
                  chat_thread := chat_thread p;
                  console := out |}).
  { unfold lifespan_startup.
    destruct (TwitchClient.authenticate o (twitch (handlers_world p)))
      as [[r tc] printed] eqn:A.
    simpl in Ha. subst r.
    assert (T : tc = twitch (handlers_world p)).
    { destruct o as [op tk cl]. unfold TwitchClient.authenticate in A.
      simpl in A.
      destruct op; [ inversion A; reflexivity | ].
      destruct tk as [ [t1 t2] | ]; [ | inversion A; reflexivity ].
      destruct cl; inversion A; reflexivity. }
    subst tc. eexists. destruct (handlers_world p). reflexivity. }
  destruct E as [out E]. rewrite E.
  unfold on_bot_reply. cbn [_on_bot_reply_cb handlers_world].
  destruct (_handle_bot_reply data (handlers_world p)) as [r w'] eqn:H.
  cbn [snd handlers_world].
  destruct (reply_handler_without_queue data (handlers_world p) Hq)
    as [Q C].
  rewrite H in Q, C. cbn [snd] in Q, C.
  unfold TwitchClient.pending, TwitchClient.handed. rewrite Q, C. auto.
Qed.

Lemma failed_auth_disables_chat_witness :
  TwitchClient.pending
    (twitch (handlers_world
               (snd (on_bot_reply plain_reply
                       (lifespan_startup oauth_declined None [] process0)))))
  = [].
Proof.
  exact (proj1 (failed_auth_disables_chat oauth_declined None [] process0
                  plain_reply eq_refl eq_refl)).
Defined.

End MainMore.
